(** * Zano chat UI: the streaming-message state machine of [src/index.tsx]

    The component [App] keeps five pieces of React state ([chat],
    [messages], [userInput], [isLoading], [error]) and changes them from
    three places: the mount effect ([initChat]), the input's [onChange]
    and the form's [onSubmit] ([handleSendMessage], an async function that
    is resumed once per streamed chunk).

    The embedding follows the source:
    - a JavaScript string is its sequence of UTF-16 code units;
    - message objects live in a store and [messages] holds references to
      them, because the chunk updater mutates the last message object in
      place ([newMessages[newMessages.length - 1].text += chunkText]) on a
      shallow copy of the array;
    - every state setter is a function on the system state; updaters are
      applied once each, in the order they were queued (the root is
      rendered without [StrictMode]), so that a batch of setter calls is
      their composition;
    - one step of the machine is one run of the event loop: the mount
      effect, a change of the input, a submit, or one resumption of the
      suspended [handleSendMessage] (a chunk, the end of the stream, a
      rejection). *)

From Stdlib Require Import NArith Ascii String Lia.
From stdpp Require Import base option list.

Local Open Scope nat_scope.

(** ** JavaScript strings *)

Module JS.

(** A string value: the list of its UTF-16 code units. *)
Abbreviation str := (list N) (only parsing).

(** The code units of an ASCII literal. *)
Definition lit (s : string) : str :=
  N_of_ascii <$> list_ascii_of_string s.

(** [WhiteSpace] and [LineTerminator] of ECMAScript, the code points that
    [String.prototype.trim] strips: TAB, LF, VT, FF, CR, SP, NBSP, the
    Unicode category Zs (U+1680, U+2000 to U+200A, U+202F, U+205F,
    U+3000), LS, PS and ZWNBSP. All of them are single code units. *)
Definition isWhiteSpace (c : N) : bool :=
  ((9 <=? c) && (c <=? 13))%N
  || (c =? 32)%N || (c =? 160)%N || (c =? 5760)%N
  || ((8192 <=? c) && (c <=? 8202))%N
  || (c =? 8232)%N || (c =? 8233)%N || (c =? 8239)%N
  || (c =? 8287)%N || (c =? 12288)%N || (c =? 65279)%N.

Fixpoint trimStart (s : str) : str :=
  match s with
  | [] => []
  | c :: rest => if isWhiteSpace c then trimStart rest else s
  end.

Definition trimEnd (s : str) : str := reverse (trimStart (reverse s)).

(** [s.trim()] *)
Definition trim (s : str) : str := trimEnd (trimStart s).

(** What [s += x] appends to a string for [x : string | undefined]:
    [ToString(undefined)] is the word [undefined]. *)
Definition toString (x : option str) : str :=
  match x with
  | Some t => t
  | None => lit "undefined"
  end.

(** Truthiness of a string: every string but the empty one. *)
Definition truthy (s : str) : bool :=
  match s with [] => false | _ :: _ => true end.

End JS.

(** ** Data model *)

(** [interface Message { role: 'user' | 'model'; text: string }] *)
Inductive Role : Type := user | model.

Record Message : Type := mkMessage { role : Role; text : JS.str }.

Global Instance Role_eq_dec : EqDecision Role.
Proof. solve_decision. Defined.

Global Instance Message_eq_dec : EqDecision Message.
Proof. solve_decision. Defined.

(** The session handle returned by [ai.chats.create]; it carries the
    configuration it was created with. *)
Record Chat : Type := mkChat { chatModel : string; systemInstruction : string }.

(** A reference to a message object: its address in the store. *)
Abbreviation ref := nat (only parsing).

(** The state of the running page. [store] is the heap of message objects;
    [chat], [messages], [userInput], [isLoading] and [error] are the five
    [useState] cells of [App]; [mounted] says that the mount effect has
    run, [awaiting] that an invocation of [handleSendMessage] is suspended
    at an [await], and [sent] lists the messages passed to
    [chat.sendMessageStream] so far. *)
Record Sys : Type := mkSys {
  store : list Message;
  chat : option Chat;
  messages : list ref;
  userInput : JS.str;
  isLoading : bool;
  error : option JS.str;
  mounted : bool;
  awaiting : bool;
  sent : list JS.str
}.

(** The values passed to [useState], before any effect has run. *)
Definition initial : Sys :=
  {| store := []; chat := None; messages := []; userInput := [];
     isLoading := false; error := None; mounted := false; awaiting := false;
     sent := [] |}.

(** *** State setters *)

Definition setStore (h : list Message) (s : Sys) : Sys :=
  mkSys h (chat s) (messages s) (userInput s) (isLoading s) (error s)
        (mounted s) (awaiting s) (sent s).

Definition setChat (c : option Chat) (s : Sys) : Sys :=
  mkSys (store s) c (messages s) (userInput s) (isLoading s) (error s)
        (mounted s) (awaiting s) (sent s).

(** [setMessages(prev => f(prev))] *)
Definition setMessages (f : list ref → list ref) (s : Sys) : Sys :=
  mkSys (store s) (chat s) (f (messages s)) (userInput s) (isLoading s)
        (error s) (mounted s) (awaiting s) (sent s).

Definition setUserInput (v : JS.str) (s : Sys) : Sys :=
  mkSys (store s) (chat s) (messages s) v (isLoading s) (error s)
        (mounted s) (awaiting s) (sent s).

Definition setIsLoading (b : bool) (s : Sys) : Sys :=
  mkSys (store s) (chat s) (messages s) (userInput s) b (error s)
        (mounted s) (awaiting s) (sent s).

Definition setError (e : option JS.str) (s : Sys) : Sys :=
  mkSys (store s) (chat s) (messages s) (userInput s) (isLoading s) e
        (mounted s) (awaiting s) (sent s).

Definition setMounted (b : bool) (s : Sys) : Sys :=
  mkSys (store s) (chat s) (messages s) (userInput s) (isLoading s)
        (error s) b (awaiting s) (sent s).

Definition setAwaiting (b : bool) (s : Sys) : Sys :=
  mkSys (store s) (chat s) (messages s) (userInput s) (isLoading s)
        (error s) (mounted s) b (sent s).

Definition setSent (l : list JS.str) (s : Sys) : Sys :=
  mkSys (store s) (chat s) (messages s) (userInput s) (isLoading s)
        (error s) (mounted s) (awaiting s) l.

(** Evaluation of an object literal: a fresh object at the next address. *)
Definition alloc (m : Message) (s : Sys) : ref * Sys :=
  (length (store s), setStore (store s ++ [m]) s).

(** The Conversation: the message objects that [messages] refers to, in
    order. [None] if a reference is dangling. *)
Definition conversation (s : Sys) : option (list Message) :=
  mapM (λ r : ref, store s !! r) (messages s).

(** ** The handlers of [App] *)

(** The session that [initChat] asks for (lines 22 to 27). *)
Definition newChat : Chat :=
  {| chatModel := "gemini-2.5-flash";
     systemInstruction := "You are Zano, a powerful AI assistant created by Ayan Ali. Your responses should be helpful, concise, and infused with a touch of personality. You are not just a tool, but an intelligent companion." |}.

Definition initError : JS.str :=
  JS.lit "Failed to initialize the AI. Please check the API key.".

Definition streamError : JS.str :=
  JS.lit "An error occurred while getting the response. Please try again.".

(** [initChat]: [created] tells whether [new GoogleGenAI] and
    [ai.chats.create] returned ([true]) or threw ([false]). *)
Definition initChat (created : bool) (s : Sys) : Sys :=
  if created then setChat (Some newChat) s
  else setError (Some initError) s.

(** The condition of the early return of [handleSendMessage] (line 46):
    [!userInput.trim() || isLoading || !chat]. *)
Definition returnsEarly (s : Sys) : bool :=
  negb (JS.truthy (JS.trim (userInput s)))
  || isLoading s
  || negb (bool_decide (is_Some (chat s))).

(** [handleSendMessage] from its entry to its first [await] (lines 45 to
    57). [input] is the [userInput] that the handler closed over;
    [e.preventDefault()] touches the event only. *)
Definition sendStart (s : Sys) : Sys :=
  if returnsEarly s then s
  else
    let input := userInput s in
    let '(userMessage, s) := alloc {| role := user; text := input |} s in
    let s := setMessages (λ prev, prev ++ [userMessage]) s in
    let messageToSend := input in
    let s := setUserInput [] s in
    let s := setIsLoading true s in
    let s := setError None s in
    let '(placeholder, s) := alloc {| role := model; text := [] |} s in
    let s := setMessages (λ prev, prev ++ [placeholder]) s in
    let s := setSent (sent s ++ [messageToSend]) s in
    setAwaiting true s.

(** The updater of lines 61 to 65, run on one chunk: the array is copied,
    the object its last slot refers to is mutated; [+=] appends the text
    of the chunk, and the word [undefined] for a chunk without text. On
    an empty array
    [newMessages[-1]] is [undefined] and reading [.text] throws: [None]
    (as for a reference to no object, which JavaScript cannot form). *)
Definition applyChunk (chunkText : option JS.str) (s : Sys) : option Sys :=
  r ← last (messages s);
  m ← store s !! r;
  let m' := {| role := role m; text := text m ++ JS.toString chunkText |} in
  Some (setStore (<[r := m']> (store s)) s).

(** The [finally] block. *)
Definition sendFinally (s : Sys) : Sys :=
  setAwaiting false (setIsLoading false s).

(** The [catch] block: [prev.slice(0, -1)] keeps all but the last slot. *)
Definition sendCatch (s : Sys) : Sys :=
  let s := setError (Some streamError) s in
  setMessages (λ prev, take (length prev - 1) prev) s.

(** ** The event loop *)

Inductive Event : Type :=
  | Mount (created : bool)      (* the effect of lines 18 to 35 *)
  | Change (value : JS.str)     (* [onChange] of the input *)
  | Submit                      (* [onSubmit] of the form *)
  | Chunk (chunkText : option JS.str)  (* the stream yields a chunk *)
  | Done                        (* the stream is exhausted *)
  | Fail.                       (* the request or the stream rejects *)

(** One event. [None] when the event cannot occur in [s] (the effect with
    an empty dependency list runs once; the input is [disabled] while
    [isLoading]; a stream only speaks to a suspended send) or when the
    updater throws. *)
Definition step (s : Sys) (ev : Event) : option Sys :=
  match ev with
  | Mount created =>
      if mounted s then None else Some (initChat created (setMounted true s))
  | Change value =>
      if isLoading s then None else Some (setUserInput value s)
  | Submit => Some (sendStart s)
  | Chunk chunkText =>
      if awaiting s then applyChunk chunkText s else None
  | Done =>
      if awaiting s then Some (sendFinally s) else None
  | Fail =>
      if awaiting s then Some (sendFinally (sendCatch s)) else None
  end.

Fixpoint run (s : Sys) (evs : list Event) : option Sys :=
  match evs with
  | [] => Some s
  | ev :: evs => s' ← step s ev; run s' evs
  end.

Definition reachable (s : Sys) : Prop := ∃ evs, run initial evs = Some s.

(** What a stream does after the request: finitely many chunks, then
    exhaustion ([completes = true]) or a rejection. A rejection of the
    request itself is a failure after no chunk. The getter [chunk.text]
    of the SDK has the type [string | undefined]: [None] is a chunk
    without a text part. *)
Record Outcome : Type :=
  mkOutcome { chunks : list (option JS.str); completes : bool }.

Definition streamEvents (o : Outcome) : list Event :=
  (Chunk <$> chunks o) ++ [if completes o then Done else Fail].

(** A whole invocation of [handleSendMessage] against a stream. *)
Definition handleSendMessage (s : Sys) (o : Outcome) : option Sys :=
  if returnsEarly s then Some s
  else run (sendStart s) (streamEvents o).

(** ** Rendering *)

(** What the JSX of lines 96 to 131 shows of a state. *)
Record View : Type := mkView {
  welcome : bool;
  bubbles : list Message;
  typingIndicator : bool;
  errorText : option JS.str;
  inputValue : JS.str;
  inputDisabled : bool;
  sendDisabled : bool
}.

Definition render (s : Sys) : option View :=
  msgs ← conversation s;
  Some {|
    welcome := bool_decide (length msgs = 0) && negb (isLoading s);
    bubbles := msgs;
    typingIndicator :=
      isLoading s && negb (bool_decide (role <$> last msgs = Some model));
    errorText :=
      match error s with
      | Some e => if JS.truthy e then Some e else None
      | None => None
      end;
    inputValue := userInput s;
    inputDisabled := isLoading s;
    sendDisabled := isLoading s || negb (JS.truthy (JS.trim (userInput s)))
  |}.

(** The chunk updater folded over the chunks of a stream, in delivery
    order. *)
Fixpoint applyChunks (cs : list (option JS.str)) (s : Sys) : option Sys :=
  match cs with
  | [] => Some s
  | c :: cs => s' ← applyChunk c s; applyChunks cs s'
  end.

(** What the chunks of a stream append, one after the other, to the
    text of the message they are applied to. *)
Definition appended (cs : list (option JS.str)) : JS.str :=
  concat (JS.toString <$> cs).

(** The texts of the chunks of a stream that have one. *)
Definition chunkTexts (cs : list (option JS.str)) : list JS.str :=
  omap id cs.

(** Whether an event is a run of the mount effect. *)
Definition isMount (ev : Event) : bool :=
  match ev with Mount _ => true | _ => false end.

(** ** The invariant of the event loop *)

(** No two slots of [messages] share an object, no reference dangles, the
    [isLoading] flag is up exactly while a send is suspended, a session
    exists only once the mount effect has run, and a suspended send has
    cleared the input, holds a session and has its own user message and
    model placeholder in the last two slots, and without a session the
    Conversation is empty. *)
Record wf (s : Sys) : Prop := mkWf {
  wf_nodup : NoDup (messages s);
  wf_bound : Forall (λ r, r < length (store s)) (messages s);
  wf_loading : isLoading s = awaiting s;
  wf_unmounted : mounted s = false → chat s = None;
  wf_open :
    awaiting s = true →
    userInput s = [] ∧ is_Some (chat s) ∧
    ∃ pre u p tu tp,
      messages s = pre ++ [u; p] ∧
      store s !! u = Some (mkMessage user tu) ∧
      store s !! p = Some (mkMessage model tp);
  wf_nochat : chat s = None → messages s = []
}.

(** The part of the Conversation that no stream is writing to. *)
Definition settled (s : Sys) (v : list Message) : list Message :=
  if isLoading s then take (length v - 1) v else v.

(** The page after a failed [initChat]: no session, the initialization
    error recorded, nothing in flight, no message. *)
Definition dead (s : Sys) : Prop :=
  mounted s = true ∧ chat s = None ∧ error s = Some initError ∧
  isLoading s = false ∧ awaiting s = false ∧ messages s = [].

(** ** Sample states *)

(** A page with a session and [" hi "] typed into the input, and the
    events that lead to it. *)
Definition typedHiTrace : list Event := [Mount true; Change (JS.lit " hi ")].

Definition typedHi : Sys :=
  {| store := []; chat := Some newChat; messages := [];
     userInput := JS.lit " hi "; isLoading := false; error := None;
     mounted := true; awaiting := false; sent := [] |}.

(** The page after one completed exchange, with a second question typed. *)
Definition secondTurnTrace : list Event :=
  [Mount true; Change (JS.lit "hello"); Submit; Chunk (Some (JS.lit "Hi!")); Done;
   Change (JS.lit "and then?")].

Definition secondTurn : Sys :=
  {| store := [mkMessage user (JS.lit "hello"); mkMessage model (JS.lit "Hi!")];
     chat := Some newChat; messages := [0; 1];
     userInput := JS.lit "and then?"; isLoading := false; error := None;
     mounted := true; awaiting := false; sent := [JS.lit "hello"] |}.

(** The page in the middle of a stream, with one chunk applied. *)
Definition midStreamTrace : list Event :=
  [Mount true; Change (JS.lit "hello"); Submit; Chunk (Some (JS.lit "Hi"))].

Definition midStream : Sys :=
  {| store := [mkMessage user (JS.lit "hello"); mkMessage model (JS.lit "Hi")];
     chat := Some newChat; messages := [0; 1];
     userInput := []; isLoading := true; error := None;
     mounted := true; awaiting := true; sent := [JS.lit "hello"] |}.

(** What [midStream] renders to. *)
Definition midStreamView : View :=
  {| welcome := false;
     bubbles := [mkMessage user (JS.lit "hello"); mkMessage model (JS.lit "Hi")];
     typingIndicator := false; errorText := None; inputValue := [];
     inputDisabled := true; sendDisabled := true |}.

(** The page after a failed [initChat], with a question typed. *)
Definition noSessionTrace : list Event :=
  [Mount false; Change (JS.lit "hello"); Submit].

Definition noSession : Sys :=
  {| store := []; chat := None; messages := [];
     userInput := JS.lit "hello"; isLoading := false;
     error := Some initError; mounted := true; awaiting := false;
     sent := [] |}.

(** The page after a send that failed with one chunk applied: the user
    message stays, the object of the model message is no longer referred
    to. *)
Definition failedTurnTrace : list Event :=
  [Mount true; Change (JS.lit " hi "); Submit; Chunk (Some (JS.lit "Hi")); Fail].

Definition failedTurn : Sys :=
  {| store := [mkMessage user (JS.lit " hi "); mkMessage model (JS.lit "Hi")];
     chat := Some newChat; messages := [0]; userInput := [];
     isLoading := false; error := Some streamError; mounted := true;
     awaiting := false; sent := [JS.lit " hi "] |}.

(** ** Notions used by the further properties of the page *)

(** Whether an event ends a stream, normally or not. *)
Definition isEnd (ev : Event) : bool :=
  match ev with Done | Fail => true | _ => false end.

(** Every model message directly follows a user message. *)
Definition paired (v : list Message) : Prop :=
  ∀ i m, v !! i = Some m → role m = model →
         ∃ j u, i = S j ∧ v !! j = Some u ∧ role u = user.

(** The texts of the user messages of a Conversation, in order. *)
Definition userTexts (v : list Message) : list JS.str :=
  text <$> filter (λ m, role m = user) v.

(** What [error] can hold: nothing before the mount effect or while a
    send is in flight, and otherwise nothing, the initialization error
    without a session, or the stream error with one. *)
Definition errorInv (s : Sys) : Prop :=
  (mounted s = false → error s = None) ∧
  (isLoading s = true → error s = None) ∧
  (error s = None
   ∨ (error s = Some initError ∧ chat s = None)
   ∨ (error s = Some streamError ∧ is_Some (chat s))).

(** A failed send, a new input and a second send: the events of a manual
    retry. *)
Definition retryEvents (cs1 : list (option JS.str)) (input2 : JS.str)
    (cs2 : list (option JS.str)) : list Event :=
  Submit :: streamEvents (mkOutcome cs1 false)
  ++ Change input2 :: Submit :: streamEvents (mkOutcome cs2 true).

(** * Properties *)

(** ** Reading message objects through references *)

Section Deref.
Context (f : ref → option Message).

Lemma mapM_app_Some (l k : list ref) (v w : list Message) :
  mapM f l = Some v → mapM f k = Some w → mapM f (l ++ k) = Some (v ++ w).
Proof.
  rewrite !mapM_Some. apply Forall2_app.
Qed.

Lemma mapM_app_inv (l k : list ref) (u : list Message) :
  mapM f (l ++ k) = Some u →
  ∃ v w, u = v ++ w ∧ mapM f l = Some v ∧ mapM f k = Some w.
Proof.
  rewrite mapM_Some. intros (v & w & Hv & Hw & ->)%Forall2_app_inv_l.
  exists v, w. by rewrite !mapM_Some.
Qed.

Lemma mapM_take (n : nat) (l : list ref) (v : list Message) :
  mapM f l = Some v → mapM f (take n l) = Some (take n v).
Proof.
  rewrite !mapM_Some. apply Forall2_take.
Qed.
End Deref.

(** Allocation does not disturb the objects already in the store. *)
Lemma deref_alloc (h h' : list Message) (l : list ref) :
  Forall (λ r, r < length h) l →
  mapM (λ r : ref, (h ++ h') !! r) l = mapM (λ r : ref, h !! r) l.
Proof.
  intros Hl. apply Forall_mapM_ext.
  eapply Forall_impl; [exact Hl|]. intros r Hr. simpl. by apply lookup_app_l.
Qed.

(** Mutating one object does not disturb the others. *)
Lemma deref_mutate (h : list Message) (r : ref) (m : Message) (l : list ref) :
  r ∉ l →
  mapM (λ r' : ref, <[r:=m]> h !! r') l = mapM (λ r' : ref, h !! r') l.
Proof.
  intros Hr. apply Forall_mapM_ext, Forall_forall. intros r' Hr'. simpl.
  apply list_lookup_insert_ne. intros ->. by apply Hr.
Qed.

Lemma wf_initial : wf initial.
Proof.
  split; simpl; try done.
  - constructor.
Qed.

Lemma returnsEarly_false (s : Sys) :
  returnsEarly s = false ↔
  JS.trim (userInput s) ≠ [] ∧ isLoading s = false ∧ is_Some (chat s).
Proof.
  unfold returnsEarly. rewrite !orb_false_iff, !negb_false_iff, bool_decide_eq_true.
  destruct (JS.trim (userInput s)); simpl; intuition congruence.
Qed.

(** The state after the synchronous part of a send that passed the guard. *)
Lemma sendStart_passed (s : Sys) :
  returnsEarly s = false →
  sendStart s =
    mkSys (store s ++ [mkMessage user (userInput s)] ++ [mkMessage model []])
          (chat s)
          (messages s ++ [length (store s)] ++ [S (length (store s))])
          [] true None (mounted s) true (sent s ++ [userInput s]).
Proof.
  intros H. unfold sendStart. rewrite H. clear H.
  destruct s as [h c ms input loading err mnt aw snt].
  cbv beta iota zeta delta
    [alloc setStore setMessages setUserInput setIsLoading setError setSent
     setAwaiting store chat messages userInput isLoading error mounted
     awaiting sent].
  rewrite length_app, Nat.add_1_r. by rewrite <- !(assoc_L (++)).
Qed.

Lemma sendStart_early (s : Sys) : returnsEarly s = true → sendStart s = s.
Proof. intros H. unfold sendStart. by rewrite H. Qed.

Lemma wf_sendStart (s : Sys) : wf s → wf (sendStart s).
Proof.
  intros Hs. destruct (returnsEarly s) eqn:Hg; [by rewrite sendStart_early|].
  rewrite sendStart_passed by done.
  apply returnsEarly_false in Hg as (_ & Hload & Hchat).
  destruct Hs as [Hnd Hb Hl Hm Ho Hn]. split; simpl.
  - apply NoDup_app. split_and!; [done| |].
    + intros r Hr Hin. rewrite Forall_forall in Hb. apply Hb in Hr.
      rewrite elem_of_cons, list_elem_of_singleton in Hin. lia.
    + apply NoDup_cons. split; [|apply NoDup_singleton].
      rewrite list_elem_of_singleton. lia.
  - rewrite !length_app; simpl. apply Forall_app. split.
    + eapply Forall_impl; [exact Hb|]. simpl. lia.
    + repeat constructor; lia.
  - done.
  - done.
  - intros _. split_and!; [done..|].
    exists (messages s), (length (store s)), (S (length (store s))),
      (userInput s), []. split_and!; [done| |].
    + rewrite lookup_app_r by lia. by rewrite Nat.sub_diag.
    + rewrite lookup_app_r by lia.
      by replace (S (length (store s)) - length (store s)) with 1 by lia.
  - intros Hc. rewrite Hc in Hchat. by destruct Hchat.
Qed.

(** On a suspended send the chunk updater finds the placeholder in the
    last slot and does not throw. *)
Lemma applyChunk_open (s : Sys) (chunkText : option JS.str) :
  wf s → awaiting s = true →
  ∃ pre u p tu tp,
    messages s = pre ++ [u; p] ∧
    store s !! u = Some (mkMessage user tu) ∧
    store s !! p = Some (mkMessage model tp) ∧
    applyChunk chunkText s =
      Some (setStore (<[p := mkMessage model (tp ++ JS.toString chunkText)]>
                        (store s)) s).
Proof.
  intros Hs Ha. destruct (wf_open s Hs Ha) as (_ & _ & pre & u & p & tu & tp & Hm & Hu & Hp).
  exists pre, u, p, tu, tp. split_and!; try done.
  unfold applyChunk. rewrite Hm.
  replace (pre ++ [u; p]) with ((pre ++ [u]) ++ [p]) by by rewrite <- (assoc_L (++)).
  rewrite last_snoc. simpl. by rewrite Hp.
Qed.

Lemma wf_applyChunk (s s' : Sys) (chunkText : option JS.str) :
  wf s → awaiting s = true → applyChunk chunkText s = Some s' → wf s'.
Proof.
  intros Hs Ha Hc.
  destruct (applyChunk_open s chunkText Hs Ha)
    as (pre & u & p & tu & tp & Hm & Hu & Hp & Heq).
  rewrite Heq in Hc. injection Hc as <-.
  pose proof (wf_nodup s Hs) as Hnd.
  destruct Hs as [_ Hb Hl Hmnt Ho Hn]. split; simpl; try done.
  - by rewrite length_insert.
  - intros _. destruct (Ho Ha) as (Hin & Hch & _). split_and!; [done..|].
    assert (u ≠ p) as Hne.
    { rewrite Hm in Hnd. apply NoDup_app in Hnd as (_ & _ & Hnd).
      apply NoDup_cons in Hnd as [Hnd _].
      rewrite list_elem_of_singleton in Hnd. done. }
    exists pre, u, p, tu, (tp ++ JS.toString chunkText). split_and!; [done| |].
    + by rewrite list_lookup_insert_ne.
    + apply list_lookup_insert_eq. by eapply lookup_lt_Some.
Qed.

Lemma wf_sendCatch (s : Sys) : wf s → wf (sendFinally (sendCatch s)).
Proof.
  intros [Hnd Hb Hl Hm Ho Hn]. split; simpl; try done.
  - eapply sublist_NoDup; [done|apply sublist_take].
  - by apply Forall_take.
  - intros Hc. by rewrite (Hn Hc).
Qed.

Lemma wf_sendFinally (s : Sys) : wf s → wf (sendFinally s).
Proof. intros [Hnd Hb Hl Hm Ho Hn]. by split. Qed.

Lemma wf_initChat (s : Sys) (created : bool) :
  wf s → mounted s = false → wf (initChat created (setMounted true s)).
Proof.
  intros [Hnd Hb Hl Hm Ho Hn] Hmnt.
  assert (awaiting s = false) as Ha.
  { destruct (awaiting s) eqn:Ha; [|done].
    destruct (Ho eq_refl) as (_ & [c Hc] & _). rewrite (Hm Hmnt) in Hc. done. }
  destruct created; split; simpl; try done; rewrite Ha; done.
Qed.

Lemma wf_setUserInput (s : Sys) (v : JS.str) :
  wf s → isLoading s = false → wf (setUserInput v s).
Proof.
  intros [Hnd Hb Hl Hm Ho Hn] Hload. split; simpl; try done.
  rewrite <- Hl, Hload. done.
Qed.

Lemma wf_step (s s' : Sys) (ev : Event) : wf s → step s ev = Some s' → wf s'.
Proof.
  intros Hs. destruct ev as [created|v| |chunkText| |]; simpl.
  - destruct (mounted s) eqn:Hm; [done|]. intros [= <-]. by apply wf_initChat.
  - destruct (isLoading s) eqn:Hl; [done|]. intros [= <-].
    by apply wf_setUserInput.
  - intros [= <-]. by apply wf_sendStart.
  - destruct (awaiting s) eqn:Ha; [|done]. by apply wf_applyChunk.
  - destruct (awaiting s); [|done]. intros [= <-]. by apply wf_sendFinally.
  - destruct (awaiting s); [|done]. intros [= <-]. by apply wf_sendCatch.
Qed.

Lemma wf_run (evs : list Event) (s s' : Sys) :
  wf s → run s evs = Some s' → wf s'.
Proof.
  revert s. induction evs as [|ev evs IH]; intros s Hs; simpl.
  - by intros [= <-].
  - destruct (step s ev) as [s1|] eqn:Hstep; [|done]. simpl.
    apply IH. by eapply wf_step.
Qed.

Lemma reachable_wf (s : Sys) : reachable s → wf s.
Proof. intros [evs Hevs]. eapply wf_run; [apply wf_initial|done]. Qed.

Lemma run_app (evs evs' : list Event) (s : Sys) :
  run s (evs ++ evs') = s' ← run s evs; run s' evs'.
Proof.
  revert s. induction evs as [|ev evs IH]; intros s; simpl; [done|].
  destruct (step s ev); simpl; [apply IH|done].
Qed.

Lemma reachable_run (evs : list Event) (s s' : Sys) :
  reachable s → run s evs = Some s' → reachable s'.
Proof.
  intros [evs0 H0] H. exists (evs0 ++ evs). rewrite run_app, H0. done.
Qed.

(** In a well-formed state every reference resolves. *)
Lemma wf_conversation (s : Sys) : wf s → is_Some (conversation s).
Proof.
  intros Hs. apply mapM_is_Some. eapply Forall_impl; [apply (wf_bound s Hs)|].
  intros r Hr. simpl. by apply lookup_lt_is_Some.
Qed.

(** ** The handlers, seen on the Conversation *)

Lemma lookup_snoc2_fst (h : list Message) (a b : Message) :
  (h ++ [a; b]) !! length h = Some a.
Proof. rewrite lookup_app_r by lia. by rewrite Nat.sub_diag. Qed.

Lemma lookup_snoc2_snd (h : list Message) (a b : Message) :
  (h ++ [a; b]) !! S (length h) = Some b.
Proof.
  rewrite lookup_app_r by lia.
  by replace (S (length h) - length h) with 1 by lia.
Qed.

(** A send that passes the guard appends the user message, with the input
    as typed, and an empty model placeholder. *)
Lemma conversation_sendStart (s : Sys) (v : list Message) :
  wf s → returnsEarly s = false → conversation s = Some v →
  conversation (sendStart s) =
    Some (v ++ [mkMessage user (userInput s); mkMessage model []]).
Proof.
  intros Hs Hg Hv. rewrite sendStart_passed by done.
  unfold conversation in *; simpl.
  apply mapM_app_Some.
  - by rewrite deref_alloc by apply (wf_bound s Hs).
  - simpl. by rewrite lookup_snoc2_fst, lookup_snoc2_snd.
Qed.

(** One chunk: the text of the last message grows by the chunk, nothing
    else changes. *)
Lemma conversation_applyChunk (s : Sys) (chunkText : option JS.str)
    (v : list Message) :
  wf s → awaiting s = true → conversation s = Some v →
  ∃ pre tp h,
    v = pre ++ [mkMessage model tp] ∧
    applyChunk chunkText s = Some (setStore h s) ∧
    conversation (setStore h s) =
      Some (pre ++ [mkMessage model (tp ++ JS.toString chunkText)]).
Proof.
  intros Hs Ha Hv.
  destruct (applyChunk_open s chunkText Hs Ha)
    as (pre & u & p & tu & tp & Hm & Hu & Hp & Heq).
  pose proof (wf_nodup s Hs) as Hnd. rewrite Hm in Hnd.
  replace (pre ++ [u; p]) with ((pre ++ [u]) ++ [p]) in *
    by by rewrite <- (assoc_L (++)).
  unfold conversation in *. rewrite Hm in Hv.
  apply mapM_app_inv in Hv as (vpre & w & -> & Hpre & Hw).
  simpl in Hw. rewrite Hp in Hw. injection Hw as <-.
  eexists vpre, tp, _. split_and!; [done|exact Heq|].
  simpl. rewrite Hm. apply mapM_app_Some.
  - rewrite deref_mutate; [done|].
    apply NoDup_app in Hnd as (_ & Hnd & _). intros Hin.
    apply (Hnd p Hin). by apply list_elem_of_singleton.
  - simpl. rewrite list_lookup_insert_eq; [done|]. by eapply lookup_lt_Some.
Qed.

(** The chunks of a stream, folded in delivery order. *)
Lemma conversation_chunks (cs : list (option JS.str)) (s : Sys)
    (pre : list Message) (tp : JS.str) :
  wf s → awaiting s = true →
  conversation s = Some (pre ++ [mkMessage model tp]) →
  ∃ h,
    run s (Chunk <$> cs) = Some (setStore h s) ∧
    wf (setStore h s) ∧
    conversation (setStore h s) =
      Some (pre ++ [mkMessage model (tp ++ appended cs)]).
Proof.
  revert s tp. induction cs as [|c cs IH]; intros s tp Hs Ha Hv.
  - exists (store s). change (appended []) with (@nil N).
    destruct s; simpl in *. by rewrite (right_id_L [] (++)).
  - destruct (conversation_applyChunk s c _ Hs Ha Hv)
      as (pre' & tp' & h & Heq & Hc & Hv').
    apply app_inj_tail in Heq as [<- [= <-]].
    assert (wf (setStore h s)) as Hs' by by eapply wf_applyChunk.
    destruct (IH (setStore h s) (tp ++ JS.toString c) Hs' Ha Hv')
      as (h' & Hrun & Hwf & Hv'').
    exists h'. change (appended (c :: cs)) with (JS.toString c ++ appended cs).
    simpl. rewrite Ha, Hc. simpl.
    by rewrite <- (assoc_L (++)) in Hv''.
Qed.

(** The rollback drops the last slot and keeps the objects of the others. *)
Lemma conversation_sendCatch (s : Sys) (v : list Message) :
  conversation s = Some v →
  conversation (sendFinally (sendCatch s)) = Some (take (length v - 1) v).
Proof.
  intros Hv. unfold conversation in *; simpl.
  rewrite (length_mapM _ _ _ Hv). by apply mapM_take.
Qed.

Lemma conversation_sendFinally (s : Sys) :
  conversation (sendFinally s) = conversation s.
Proof. done. Qed.

(** ** Trimming *)

Lemma trimStart_nil (s : list N) :
  JS.trimStart s = [] ↔ forallb JS.isWhiteSpace s = true.
Proof.
  induction s as [|c s IH]; simpl; [done|].
  destruct (JS.isWhiteSpace c); simpl; [done|]. split; discriminate.
Qed.

Lemma forallb_reverse (p : N → bool) (s : list N) :
  forallb p (reverse s) = forallb p s.
Proof.
  induction s as [|c s IH]; simpl; [done|].
  rewrite reverse_cons, forallb_app, IH. simpl.
  rewrite andb_true_r. apply andb_comm.
Qed.

Lemma trimStart_head (s t : list N) (c : N) :
  JS.trimStart s = c :: t → JS.isWhiteSpace c = false.
Proof.
  induction s as [|d s IH]; simpl; [done|].
  destruct (JS.isWhiteSpace d) eqn:Hd; [done|]. by intros [= <- _].
Qed.

(** [!s.trim()] holds exactly of the strings made of white space only. *)
Lemma trim_nil (s : list N) :
  JS.trim s = [] ↔ forallb JS.isWhiteSpace s = true.
Proof.
  unfold JS.trim, JS.trimEnd. split.
  - intros H. apply (f_equal reverse) in H.
    rewrite reverse_involutive in H. change (reverse []) with (@nil N) in H.
    apply trimStart_nil in H. rewrite forallb_reverse in H.
    destruct (JS.trimStart s) as [|c t] eqn:Ht.
    + by apply trimStart_nil.
    + simpl in H. apply andb_true_iff in H as [Hc _].
      apply trimStart_head in Ht. congruence.
  - intros H. apply trimStart_nil in H. by rewrite H.
Qed.

(** ** A whole send *)

Lemma applyChunk_fields (c : option JS.str) (s s' : Sys) :
  applyChunk c s = Some s' → ∃ h, s' = setStore h s.
Proof.
  unfold applyChunk. destruct (last (messages s)) as [r|]; [|done]; simpl.
  destruct (store s !! r) as [m|]; [|done]; simpl. intros [= <-]. eauto.
Qed.

(** While a send is suspended, the event loop applies the chunks of its
    stream one by one. *)
Lemma run_chunks (cs : list (option JS.str)) (s : Sys) :
  awaiting s = true → run s (Chunk <$> cs) = applyChunks cs s.
Proof.
  revert s. induction cs as [|c cs IH]; intros s Ha; simpl; [done|].
  rewrite Ha. destruct (applyChunk c s) as [s'|] eqn:Hc; [|done]. simpl.
  apply IH. apply applyChunk_fields in Hc as [h ->]. done.
Qed.

Lemma take_snoc2 (v : list Message) (a b : Message) :
  take (length (v ++ [a; b]) - 1) (v ++ [a; b]) = v ++ [a].
Proof.
  replace (v ++ [a; b]) with ((v ++ [a]) ++ [b]) by by rewrite <- (assoc_L (++)).
  rewrite length_app. simpl.
  replace (length (v ++ [a]) + 1 - 1) with (length (v ++ [a])) by lia.
  apply take_app_length.
Qed.

(** What a send that passed the guard has done when its stream has
    delivered the chunks [cs]: the state [setStore h (sendStart s)] differs
    from the state at the first [await] in the store only, and the
    placeholder holds the chunks in order. *)
Lemma send_chunks (s : Sys) (v : list Message) (cs : list (option JS.str)) :
  wf s → returnsEarly s = false → conversation s = Some v →
  ∃ h,
    applyChunks cs (sendStart s) = Some (setStore h (sendStart s)) ∧
    wf (setStore h (sendStart s)) ∧
    conversation (setStore h (sendStart s)) =
      Some (v ++ [mkMessage user (userInput s); mkMessage model (appended cs)]).
Proof.
  intros Hs Hg Hv.
  pose proof (conversation_sendStart s v Hs Hg Hv) as Hv1.
  assert (awaiting (sendStart s) = true) as Ha
    by by rewrite sendStart_passed.
  replace (v ++ [mkMessage user (userInput s); mkMessage model []])
    with ((v ++ [mkMessage user (userInput s)]) ++ [mkMessage model []]) in Hv1
    by by rewrite <- (assoc_L (++)).
  destruct (conversation_chunks cs (sendStart s) _ _ (wf_sendStart s Hs) Ha Hv1)
    as (h & Hrun & Hwf & Hv2).
  exists h. rewrite <- run_chunks by done. split_and!; [done..|].
  rewrite Hv2. simpl. by rewrite <- (assoc_L (++)).
Qed.

Lemma handleSendMessage_passed (s : Sys) (cs : list (option JS.str))
    (ok : bool) (sb : Sys) :
  returnsEarly s = false → applyChunks cs (sendStart s) = Some sb →
  handleSendMessage s (mkOutcome cs ok) =
    Some (if ok then sendFinally sb else sendFinally (sendCatch sb)).
Proof.
  intros Hg Hc. unfold handleSendMessage, streamEvents. rewrite Hg. simpl.
  assert (awaiting (sendStart s) = true) as Ha by by rewrite sendStart_passed.
  rewrite run_app, run_chunks, Hc by done.
  assert (awaiting sb = true) as Hb.
  { clear Hg. revert Hc Ha. generalize (sendStart s). clear s.
    induction cs as [|c cs IH]; intros s; simpl.
    - by intros [= <-].
    - destruct (applyChunk c s) as [s'|] eqn:Hc; [|done]. simpl.
      intros Hcs Ha. apply (IH s'); [done|].
      apply applyChunk_fields in Hc as [h ->]. done. }
  destruct ok; simpl; by rewrite Hb.
Qed.

(** ** The sample states are states of the page *)

Example typedHi_run : run initial typedHiTrace = Some typedHi.
Proof. reflexivity. Qed.

Example secondTurn_run : run initial secondTurnTrace = Some secondTurn.
Proof. reflexivity. Qed.

Example midStream_run : run initial midStreamTrace = Some midStream.
Proof. reflexivity. Qed.

Example noSession_run : run initial noSessionTrace = Some noSession.
Proof. reflexivity. Qed.

Example trim_both_ends : JS.trim (JS.lit "  a b  ") = JS.lit "a b".
Proof. reflexivity. Qed.

Example trim_blank : JS.trim [32; 160; 9; 10; 8232; 65279]%N = [].
Proof. reflexivity. Qed.

Example send_success :
  handleSendMessage typedHi (mkOutcome [Some (JS.lit "Hi"); Some (JS.lit " there")] true)
    ≫= conversation =
  Some [mkMessage user (JS.lit " hi "); mkMessage model (JS.lit "Hi there")].
Proof. reflexivity. Qed.

Example send_failure :
  handleSendMessage typedHi (mkOutcome [Some (JS.lit "Hi"); Some (JS.lit " there")] false)
    ≫= conversation =
  Some [mkMessage user (JS.lit " hi ")].
Proof. reflexivity. Qed.

(** ** The send operation *)

(** C1. A send whose stream fails, after any number of chunks, removes the
    last message of the Conversation (the model message that holds the
    chunks applied so far), records the stream error, which is then
    shown, and lowers [isLoading]: the Conversation afterwards is the one
    before the send plus the user message that triggered it. *)
Theorem C1_stream_failure_rolls_back (s : Sys) (cs : list (option JS.str)) :
  reachable s → returnsEarly s = false →
  ∃ v sb s',
    conversation s = Some v ∧
    applyChunks cs (sendStart s) = Some sb ∧
    conversation sb =
      Some (v ++ [mkMessage user (userInput s); mkMessage model (appended cs)]) ∧
    handleSendMessage s (mkOutcome cs false) = Some s' ∧
    conversation s' = Some (v ++ [mkMessage user (userInput s)]) ∧
    error s' = Some streamError ∧
    errorText <$> render s' = Some (Some streamError) ∧
    isLoading s' = false.
Proof.
  intros Hs%reachable_wf Hg.
  destruct (wf_conversation s Hs) as [v Hv].
  destruct (send_chunks s v cs Hs Hg Hv) as (h & Hc & Hwf & Hvb).
  pose proof (conversation_sendCatch _ _ Hvb) as Hv'.
  rewrite take_snoc2 in Hv'.
  exists v, (setStore h (sendStart s)),
    (sendFinally (sendCatch (setStore h (sendStart s)))).
  split_and!; [done|exact Hc|exact Hvb| |exact Hv'|done| |done].
  - by rewrite (handleSendMessage_passed s cs false _ Hg Hc).
  - unfold render. rewrite Hv'. done.
Qed.

Lemma C1_witness :
  reachable secondTurn ∧ returnsEarly secondTurn = false ∧
  ∃ v sb s',
    conversation secondTurn = Some v ∧
    applyChunks [Some (JS.lit "So"); Some (JS.lit " the")] (sendStart secondTurn) = Some sb ∧
    conversation sb =
      Some (v ++ [mkMessage user (JS.lit "and then?");
                  mkMessage model (JS.lit "So the")]) ∧
    handleSendMessage secondTurn
      (mkOutcome [Some (JS.lit "So"); Some (JS.lit " the")] false) = Some s' ∧
    conversation s' = Some (v ++ [mkMessage user (JS.lit "and then?")]) ∧
    error s' = Some streamError ∧
    errorText <$> render s' = Some (Some streamError) ∧
    isLoading s' = false.
Proof.
  split; [exists secondTurnTrace; reflexivity|]. split; [reflexivity|].
  apply (C1_stream_failure_rolls_back secondTurn [Some (JS.lit "So"); Some (JS.lit " the")]).
  - exists secondTurnTrace; reflexivity.
  - reflexivity.
Defined.

(** C2. A submit with an input that is not blank, no send in flight and a
    session appends two entries to the Conversation, a user message and
    then a model message, and nothing else: this is the Conversation at
    the first [await], after every chunk, and when the stream has ended. *)
Theorem C2_send_appends_user_then_model (s : Sys) :
  reachable s →
  JS.trim (userInput s) ≠ [] → isLoading s = false → is_Some (chat s) →
  ∃ v,
    conversation s = Some v ∧
    step s Submit = Some (sendStart s) ∧
    conversation (sendStart s) =
      Some (v ++ [mkMessage user (userInput s); mkMessage model []]) ∧
    ∀ cs, ∃ sb s',
      applyChunks cs (sendStart s) = Some sb ∧
      conversation sb =
        Some (v ++ [mkMessage user (userInput s); mkMessage model (appended cs)]) ∧
      handleSendMessage s (mkOutcome cs true) = Some s' ∧
      conversation s' =
        Some (v ++ [mkMessage user (userInput s); mkMessage model (appended cs)]).
Proof.
  intros Hs%reachable_wf Ht Hl Hc.
  assert (returnsEarly s = false) as Hg by by apply returnsEarly_false.
  destruct (wf_conversation s Hs) as [v Hv].
  exists v. split_and!; [done|done|by apply conversation_sendStart|].
  intros cs. destruct (send_chunks s v cs Hs Hg Hv) as (h & Hcs & Hwf & Hvb).
  exists (setStore h (sendStart s)), (sendFinally (setStore h (sendStart s))).
  split_and!; [exact Hcs|exact Hvb| |exact Hvb].
  by rewrite (handleSendMessage_passed s cs true _ Hg Hcs).
Qed.

Lemma C2_witness :
  reachable secondTurn ∧
  JS.trim (userInput secondTurn) ≠ [] ∧ isLoading secondTurn = false ∧
  is_Some (chat secondTurn) ∧
  ∃ v,
    conversation secondTurn = Some v ∧
    step secondTurn Submit = Some (sendStart secondTurn) ∧
    conversation (sendStart secondTurn) =
      Some (v ++ [mkMessage user (JS.lit "and then?"); mkMessage model []]) ∧
    ∀ cs, ∃ sb s',
      applyChunks cs (sendStart secondTurn) = Some sb ∧
      conversation sb =
        Some (v ++ [mkMessage user (JS.lit "and then?");
                    mkMessage model (appended cs)]) ∧
      handleSendMessage secondTurn (mkOutcome cs true) = Some s' ∧
      conversation s' =
        Some (v ++ [mkMessage user (JS.lit "and then?");
                    mkMessage model (appended cs)]).
Proof.
  split; [exists secondTurnTrace; reflexivity|].
  split; [discriminate|]. split; [reflexivity|]. split; [by eexists|].
  apply (C2_send_appends_user_then_model secondTurn).
  - exists secondTurnTrace; reflexivity.
  - discriminate.
  - reflexivity.
  - by eexists.
Defined.

(** The chunk updater folded over the chunks of a stream, in delivery
    order, leaves as last message a model message whose text is what the
    chunks appended, from left to right; a stream that ends normally
    leaves that message as it is and lowers [isLoading]. *)
Lemma chunks_appended (s : Sys) (cs : list (option JS.str)) :
  reachable s → returnsEarly s = false →
  ∃ sb s',
    applyChunks cs (sendStart s) = Some sb ∧
    last <$> conversation sb = Some (Some (mkMessage model (appended cs))) ∧
    handleSendMessage s (mkOutcome cs true) = Some s' ∧
    last <$> conversation s' = Some (Some (mkMessage model (appended cs))) ∧
    isLoading s' = false.
Proof.
  intros Hs%reachable_wf Hg.
  destruct (wf_conversation s Hs) as [v Hv].
  destruct (send_chunks s v cs Hs Hg Hv) as (h & Hcs & Hwf & Hvb).
  assert (last <$> conversation (setStore h (sendStart s)) =
          Some (Some (mkMessage model (appended cs)))) as Hlast.
  { rewrite Hvb. simpl. f_equal.
    replace (v ++ [mkMessage user (userInput s); mkMessage model (appended cs)])
      with ((v ++ [mkMessage user (userInput s)]) ++ [mkMessage model (appended cs)])
      by by rewrite <- (assoc_L (++)).
    apply last_snoc. }
  exists (setStore h (sendStart s)), (sendFinally (setStore h (sendStart s))).
  split_and!; [exact Hcs|exact Hlast| |exact Hlast|done].
  by rewrite (handleSendMessage_passed s cs true _ Hg Hcs).
Qed.

(** C3. The claim fails on a stream with a chunk that has no text part:
    line 63 appends [chunk.text] as it is, and [+=] turns [undefined] into
    the word [undefined]. From the reachable state [typedHi] a stream
    that delivers the chunk [Hi], then a chunk without text, and ends
    normally leaves the model message [Hiundefined], while the texts of
    its chunks concatenate to [Hi]. *)
Theorem C3_textless_chunk_appends_undefined :
  run initial typedHiTrace = Some typedHi ∧
  chunkTexts [Some (JS.lit "Hi"); None] = [JS.lit "Hi"] ∧
  ∃ s',
    handleSendMessage typedHi (mkOutcome [Some (JS.lit "Hi"); None] true)
      = Some s' ∧
    conversation s' =
      Some [mkMessage user (JS.lit " hi ");
            mkMessage model (JS.lit "Hiundefined")] ∧
    isLoading s' = false ∧
    JS.lit "Hiundefined" ≠ concat (chunkTexts [Some (JS.lit "Hi"); None]).
Proof.
  split; [reflexivity|]. split; [reflexivity|].
  eexists. split; [reflexivity|]. split; [reflexivity|].
  split; [reflexivity|]. discriminate.
Qed.

Lemma returnsEarly_true (s : Sys) :
  returnsEarly s = true ↔
  JS.trim (userInput s) = [] ∨ isLoading s = true ∨ chat s = None.
Proof.
  unfold returnsEarly.
  rewrite !orb_true_iff, !negb_true_iff, bool_decide_eq_false.
  rewrite <- eq_None_not_Some.
  destruct (JS.trim (userInput s)); simpl; intuition congruence.
Qed.

(** C4. A submit with a blank input, or while a send is in flight, or
    without a session returns at once and normally: the state it leaves,
    and with it the Conversation, [isLoading] and [error], is the state it
    found. *)
Theorem C4_precondition_violation_is_noop (s : Sys) (o : Outcome) :
  JS.trim (userInput s) = [] ∨ isLoading s = true ∨ chat s = None →
  ∃ s',
    handleSendMessage s o = Some s' ∧
    step s Submit = Some s' ∧
    s' = s ∧
    conversation s' = conversation s ∧
    isLoading s' = isLoading s ∧
    error s' = error s.
Proof.
  intros Hg%returnsEarly_true. exists s.
  unfold handleSendMessage. simpl. rewrite sendStart_early by done.
  by rewrite Hg.
Qed.

Lemma C4_witness :
  (JS.trim (userInput midStream) = [] ∨ isLoading midStream = true
   ∨ chat midStream = None) ∧
  ∃ s',
    handleSendMessage midStream (mkOutcome [Some (JS.lit "x")] true) = Some s' ∧
    step midStream Submit = Some s' ∧
    s' = midStream ∧
    conversation s' = conversation midStream ∧
    isLoading s' = isLoading midStream ∧
    error s' = error midStream.
Proof.
  split; [right; left; reflexivity|].
  apply (C4_precondition_violation_is_noop midStream).
  right; left; reflexivity.
Defined.

(** C7. A send that passes the guard clears the input before its first
    [await]; while its stream delivers chunks the input stays empty and
    cannot be changed, because it is disabled; and whatever the stream
    does, the send ends with [isLoading] lowered and the input empty. *)
Theorem C7_send_clears_input_and_flag (s : Sys) :
  reachable s → returnsEarly s = false →
  userInput (sendStart s) = [] ∧
  (∀ cs, ∃ sm,
     applyChunks cs (sendStart s) = Some sm ∧
     userInput sm = [] ∧ isLoading sm = true ∧
     ∀ v, step sm (Change v) = None) ∧
  (∀ o, ∃ s',
     handleSendMessage s o = Some s' ∧
     isLoading s' = false ∧ userInput s' = []).
Proof.
  intros Hs%reachable_wf Hg. destruct (wf_conversation s Hs) as [v Hv].
  split_and!.
  - by rewrite sendStart_passed.
  - intros cs. destruct (send_chunks s v cs Hs Hg Hv) as (h & Hcs & _ & _).
    exists (setStore h (sendStart s)). rewrite sendStart_passed by done.
    rewrite sendStart_passed in Hcs by done. done.
  - intros [cs ok]. destruct (send_chunks s v cs Hs Hg Hv) as (h & Hcs & _ & _).
    rewrite (handleSendMessage_passed s cs ok _ Hg Hcs).
    eexists. split; [done|]. rewrite sendStart_passed by done.
    by destruct ok.
Qed.

Lemma C7_witness :
  reachable typedHi ∧ returnsEarly typedHi = false ∧
  userInput (sendStart typedHi) = [] ∧
  (∀ cs, ∃ sm,
     applyChunks cs (sendStart typedHi) = Some sm ∧
     userInput sm = [] ∧ isLoading sm = true ∧
     ∀ v, step sm (Change v) = None) ∧
  (∀ o, ∃ s',
     handleSendMessage typedHi o = Some s' ∧
     isLoading s' = false ∧ userInput s' = []).
Proof.
  split; [exists typedHiTrace; reflexivity|]. split; [reflexivity|].
  apply (C7_send_clears_input_and_flag typedHi).
  - exists typedHiTrace; reflexivity.
  - reflexivity.
Defined.

(** The request of line 57 carries the same text. *)
Lemma request_carries_input (s : Sys) :
  returnsEarly s = false → sent (sendStart s) = sent s ++ [userInput s].
Proof. intros Hg. by rewrite sendStart_passed. Qed.

(** C10. The user message that a send appends holds the input as it was
    typed, leading and trailing white space included: the trimmed text is
    used by the guard only. The message is at the same place, with the
    same text, when the send has completed, whatever its stream did. *)
Theorem C10_user_message_untrimmed (s : Sys) (o : Outcome) :
  reachable s → returnsEarly s = false →
  ∃ v s',
    conversation s = Some v ∧
    conversation (sendStart s) ≫= (.!! length v) =
      Some (mkMessage user (userInput s)) ∧
    handleSendMessage s o = Some s' ∧
    conversation s' ≫= (.!! length v) = Some (mkMessage user (userInput s)).
Proof.
  intros Hs%reachable_wf Hg. destruct o as [cs ok].
  destruct (wf_conversation s Hs) as [v Hv].
  destruct (send_chunks s v cs Hs Hg Hv) as (h & Hcs & _ & Hvb).
  rewrite (handleSendMessage_passed s cs ok _ Hg Hcs).
  eexists v, _. split_and!; [done| |done|].
  - rewrite (conversation_sendStart s v Hs Hg Hv). simpl.
    by rewrite lookup_snoc2_fst.
  - destruct ok.
    + rewrite conversation_sendFinally, Hvb. simpl. by rewrite lookup_snoc2_fst.
    + rewrite (conversation_sendCatch _ _ Hvb), take_snoc2. simpl.
      rewrite lookup_app_r by lia. by rewrite Nat.sub_diag.
Qed.

Lemma C10_witness :
  reachable typedHi ∧ returnsEarly typedHi = false ∧
  JS.trim (JS.lit " hi ") = JS.lit "hi" ∧
  ∃ v s',
    conversation typedHi = Some v ∧
    conversation (sendStart typedHi) ≫= (.!! length v) =
      Some (mkMessage user (JS.lit " hi ")) ∧
    handleSendMessage typedHi (mkOutcome [Some (JS.lit "Hello")] true) = Some s' ∧
    conversation s' ≫= (.!! length v) = Some (mkMessage user (JS.lit " hi ")).
Proof.
  split; [exists typedHiTrace; reflexivity|]. split; [reflexivity|].
  split; [reflexivity|].
  apply (C10_user_message_untrimmed typedHi (mkOutcome [Some (JS.lit "Hello")] true)).
  - exists typedHiTrace; reflexivity.
  - reflexivity.
Defined.

(** ** What the event loop may do to the Conversation *)

(** While a send is suspended the Conversation ends with the user message
    and the model message of that send. *)
Lemma conversation_open (s : Sys) (v : list Message) :
  wf s → awaiting s = true → conversation s = Some v →
  ∃ pre tu tp, v = pre ++ [mkMessage user tu; mkMessage model tp].
Proof.
  intros Hs Ha Hv.
  destruct (wf_open s Hs Ha) as (_ & _ & pre & u & p & tu & tp & Hm & Hu & Hp).
  unfold conversation in Hv. rewrite Hm in Hv.
  apply mapM_app_inv in Hv as (vpre & w & -> & _ & Hw).
  simpl in Hw. rewrite Hu, Hp in Hw. injection Hw as <-. eauto.
Qed.

Lemma take_snoc1 (v : list Message) (a : Message) :
  take (length (v ++ [a]) - 1) (v ++ [a]) = v.
Proof.
  rewrite length_app. simpl.
  replace (length v + 1 - 1) with (length v) by lia. apply take_app_length.
Qed.

(** The changes one event can make. *)
Lemma conversation_step (s s' : Sys) (ev : Event) (v : list Message) :
  wf s → conversation s = Some v → step s ev = Some s' →
  ∃ v',
    conversation s' = Some v' ∧
    (v' = v ∧ (isLoading s' = isLoading s ∨ ev = Done)
     ∨ (ev = Submit ∧ isLoading s = false ∧ isLoading s' = true ∧
        v' = v ++ [mkMessage user (userInput s); mkMessage model []])
     ∨ (∃ c pre tp,
          ev = Chunk c ∧ isLoading s = true ∧ isLoading s' = true ∧
          v = pre ++ [mkMessage model tp] ∧
          v' = pre ++ [mkMessage model (tp ++ JS.toString c)])
     ∨ (∃ m,
          ev = Fail ∧ isLoading s = true ∧ isLoading s' = false ∧
          role m = model ∧ v = v' ++ [m])).
Proof.
  intros Hs Hv. pose proof (wf_loading s Hs) as Hl.
  destruct ev as [created|value| |c| |]; simpl.
  - destruct (mounted s); [done|]. intros [= <-]. exists v.
    split; [by destruct created|]. left. split; [done|]. left. by destruct created.
  - destruct (isLoading s) eqn:Hld; [done|]. intros [= <-]. exists v.
    split; [done|]. left. split; [done|]. left. simpl. by rewrite Hld.
  - intros [= <-]. destruct (returnsEarly s) eqn:Hg.
    + rewrite sendStart_early by done. exists v. split; [done|].
      left. split; [done|]. by left.
    + eexists. split; [by apply conversation_sendStart|].
      right; left. split_and!; [done| |by rewrite sendStart_passed|done].
      by apply returnsEarly_false in Hg as (_ & ? & _).
  - destruct (awaiting s) eqn:Ha; [|done]. intros Hc.
    destruct (conversation_applyChunk s c v Hs Ha Hv) as (pre & tp & h & -> & Hc' & Hv').
    rewrite Hc' in Hc. injection Hc as <-. eexists. split; [exact Hv'|].
    right; right; left. exists c, pre, tp. simpl. by rewrite Hl.
  - destruct (awaiting s) eqn:Ha; [|done]. intros [= <-]. exists v.
    split; [done|]. left. split; [done|]. by right.
  - destruct (awaiting s) eqn:Ha; [|done]. intros [= <-].
    destruct (conversation_open s v Hs Ha Hv) as (pre & tu & tp & ->).
    eexists. split; [by apply conversation_sendCatch|].
    right; right; right. exists (mkMessage model tp).
    rewrite take_snoc2. split_and!; [done..|].
    by rewrite <- (assoc_L (++)).
Qed.

Lemma settled_prefix (s : Sys) (v : list Message) : settled s v `prefix_of` v.
Proof. unfold settled. destruct (isLoading s); [apply prefix_take|done]. Qed.

Lemma settled_step (s s' : Sys) (ev : Event) (v v' : list Message) :
  wf s → conversation s = Some v → step s ev = Some s' →
  conversation s' = Some v' → settled s v `prefix_of` settled s' v'.
Proof.
  intros Hs Hv Hstep Hv'.
  destruct (conversation_step s s' ev v Hs Hv Hstep) as (w & Hw & Hcase).
  rewrite Hv' in Hw. injection Hw as <-. unfold settled.
  destruct Hcase as [[-> [Hl | ->]] | [(_ & Hl & Hl' & ->) |
    [(c & pre & tp & _ & Hl & Hl' & -> & ->) | (m & _ & Hl & Hl' & _ & ->)]]].
  - by rewrite Hl.
  - simpl in Hstep. destruct (awaiting s); [|done]. injection Hstep as <-.
    simpl. destruct (isLoading s); [apply prefix_take|done].
  - rewrite Hl, Hl', take_snoc2. by apply prefix_app_r.
  - by rewrite Hl, Hl', !take_snoc1.
  - by rewrite Hl, Hl', take_snoc1.
Qed.

Lemma settled_run (evs : list Event) (s s' : Sys) (v : list Message) :
  wf s → conversation s = Some v → run s evs = Some s' →
  ∃ v', conversation s' = Some v' ∧ settled s v `prefix_of` settled s' v'.
Proof.
  revert s v. induction evs as [|ev evs IH]; intros s v Hs Hv; simpl.
  - intros [= <-]. by exists v.
  - destruct (step s ev) as [s1|] eqn:Hstep; [|done]. simpl. intros Hrun.
    pose proof (wf_step s s1 ev Hs Hstep) as Hs1.
    destruct (wf_conversation s1 Hs1) as [v1 Hv1].
    destruct (IH s1 v1 Hs1 Hv1 Hrun) as (v' & Hv' & Hpre).
    exists v'. split; [done|]. etrans; [|exact Hpre].
    by eapply settled_step.
Qed.

(** C5. One event of the page leaves the role of every message of the
    Conversation as it was and its text a prefix of what it becomes. The
    Conversation is left as it was, or a submit appends to it, or a chunk
    extends the text of its last message, a model message, while a send
    is in flight, or the failure of the stream in flight removes its last
    message, a model message. From a state with no send in flight, no
    sequence of events changes or removes a message already there. *)
Theorem C5_conversation_changes (s : Sys) (v : list Message) :
  reachable s → conversation s = Some v →
  (∀ ev s', step s ev = Some s' →
     ∃ v',
       conversation s' = Some v' ∧
       (∀ i m m', v !! i = Some m → v' !! i = Some m' →
                  role m' = role m ∧ text m `prefix_of` text m') ∧
       (v' = v
        ∨ (ev = Submit ∧ isLoading s = false ∧
           v' = v ++ [mkMessage user (userInput s); mkMessage model []])
        ∨ (∃ c pre tp,
             ev = Chunk c ∧ isLoading s = true ∧
             v = pre ++ [mkMessage model tp] ∧
             v' = pre ++ [mkMessage model (tp ++ JS.toString c)])
        ∨ (∃ m,
             ev = Fail ∧ isLoading s = true ∧ role m = model ∧
             v = v' ++ [m]))) ∧
  (isLoading s = false →
   ∀ evs s', run s evs = Some s' →
     ∃ v', conversation s' = Some v' ∧ v `prefix_of` v').
Proof.
  intros Hs%reachable_wf Hv. split.
  - intros ev s' Hstep.
    destruct (conversation_step s s' ev v Hs Hv Hstep) as (v' & Hv' & Hcase).
    exists v'. split; [done|].
    destruct Hcase as [[-> _] | [(-> & Hl & _ & ->) |
      [(c & pre & tp & -> & Hl & _ & -> & ->) | (m & -> & Hl & _ & Hm & ->)]]].
    + split; [|by left]. intros i m m' Hi Hi'. by simplify_eq.
    + split; [|right; left; done]. intros i m m' Hi Hi'.
      rewrite (lookup_app_l_Some _ _ _ _ Hi) in Hi'. by simplify_eq.
    + split; [|right; right; left; by exists c, pre, tp].
      intros i m m' Hi Hi'.
      apply lookup_snoc_Some in Hi as [[Hlt Hi] | [-> <-]].
      * rewrite lookup_app_l in Hi' by done. by simplify_eq.
      * rewrite list_lookup_middle in Hi' by done. simplify_eq. simpl.
        split; [done|]. by apply prefix_app_r.
    + split; [|right; right; right; by exists m].
      intros i m0 m' Hi Hi'.
      rewrite (lookup_app_l_Some _ _ _ _ Hi') in Hi. by simplify_eq.
  - intros Hl evs s' Hrun.
    destruct (settled_run evs s s' v Hs Hv Hrun) as (v' & Hv' & Hpre).
    exists v'. split; [done|]. unfold settled at 1 in Hpre. rewrite Hl in Hpre.
    etrans; [exact Hpre|]. apply settled_prefix.
Qed.

Lemma C5_witness :
  reachable secondTurn ∧
  conversation secondTurn =
    Some [mkMessage user (JS.lit "hello"); mkMessage model (JS.lit "Hi!")] ∧
  (∀ ev s', step secondTurn ev = Some s' →
     ∃ v',
       conversation s' = Some v' ∧
       (∀ i m m',
          [mkMessage user (JS.lit "hello"); mkMessage model (JS.lit "Hi!")]
            !! i = Some m →
          v' !! i = Some m' →
          role m' = role m ∧ text m `prefix_of` text m') ∧
       (v' = [mkMessage user (JS.lit "hello"); mkMessage model (JS.lit "Hi!")]
        ∨ (ev = Submit ∧ isLoading secondTurn = false ∧
           v' = [mkMessage user (JS.lit "hello"); mkMessage model (JS.lit "Hi!")]
                ++ [mkMessage user (userInput secondTurn); mkMessage model []])
        ∨ (∃ c pre tp,
             ev = Chunk c ∧ isLoading secondTurn = true ∧
             [mkMessage user (JS.lit "hello"); mkMessage model (JS.lit "Hi!")]
               = pre ++ [mkMessage model tp] ∧
             v' = pre ++ [mkMessage model (tp ++ JS.toString c)])
        ∨ (∃ m,
             ev = Fail ∧ isLoading secondTurn = true ∧ role m = model ∧
             [mkMessage user (JS.lit "hello"); mkMessage model (JS.lit "Hi!")]
               = v' ++ [m]))) ∧
  (isLoading secondTurn = false →
   ∀ evs s', run secondTurn evs = Some s' →
     ∃ v',
       conversation s' = Some v' ∧
       [mkMessage user (JS.lit "hello"); mkMessage model (JS.lit "Hi!")]
         `prefix_of` v').
Proof.
  split; [exists secondTurnTrace; reflexivity|]. split; [reflexivity|].
  apply (C5_conversation_changes secondTurn).
  - exists secondTurnTrace; reflexivity.
  - reflexivity.
Defined.

(** ** The session *)

Lemma dead_returnsEarly (s : Sys) : chat s = None → returnsEarly s = true.
Proof. intros Hc. apply returnsEarly_true. auto. Qed.

Lemma dead_step (s s' : Sys) (ev : Event) :
  dead s → step s ev = Some s' → dead s'.
Proof.
  intros (Hm & Hc & He & Hl & Ha & Hmsg).
  destruct ev as [created|value| |c| |]; simpl; rewrite ?Hm, ?Hl, ?Ha; try done.
  - by intros [= <-].
  - intros [= <-]. by rewrite sendStart_early by by apply dead_returnsEarly.
Qed.

Lemma dead_run (evs : list Event) (s s' : Sys) :
  dead s → run s evs = Some s' → dead s'.
Proof.
  revert s. induction evs as [|ev evs IH]; intros s Hs; simpl.
  - by intros [= <-].
  - destruct (step s ev) as [s1|] eqn:Hstep; [|done]. simpl.
    apply IH. by eapply dead_step.
Qed.

Lemma dead_initChat (s s' : Sys) :
  wf s → step s (Mount false) = Some s' → dead s'.
Proof.
  intros Hs. simpl. destruct (mounted s) eqn:Hm; [done|]. intros [= <-].
  pose proof (wf_unmounted s Hs Hm) as Hc.
  assert (awaiting s = false) as Ha.
  { destruct (awaiting s) eqn:Ha; [|done].
    destruct (wf_open s Hs Ha) as (_ & [c Hc'] & _). congruence. }
  unfold dead; simpl. split_and!; try done.
  - by rewrite (wf_loading s Hs).
  - by apply (wf_nochat s Hs).
Qed.

Lemma step_mounted (s s' : Sys) (ev : Event) :
  step s ev = Some s' →
  if isMount ev then mounted s = false ∧ mounted s' = true
  else mounted s' = mounted s.
Proof.
  destruct ev as [created|value| |c| |]; simpl.
  - destruct (mounted s); [done|]. intros [= <-]. by destruct created.
  - destruct (isLoading s); [done|]. by intros [= <-].
  - intros [= <-]. unfold sendStart. by destruct (returnsEarly s).
  - destruct (awaiting s); [|done]. by intros [h ->]%applyChunk_fields.
  - destruct (awaiting s); [|done]. by intros [= <-].
  - destruct (awaiting s); [|done]. by intros [= <-].
Qed.

(** The mount effect runs at most once, and not at all once [mounted]. *)
Lemma run_mounts (evs : list Event) (s s' : Sys) :
  run s evs = Some s' →
  length (List.filter isMount evs) ≤ (if mounted s then 0 else 1).
Proof.
  revert s. induction evs as [|ev evs IH]; intros s; simpl.
  - intros _. destruct (mounted s); lia.
  - destruct (step s ev) as [s1|] eqn:Hstep; [|done]. simpl. intros Hrun.
    apply IH in Hrun. apply step_mounted in Hstep.
    destruct (isMount ev); simpl.
    + destruct Hstep as [-> Hs1]. rewrite Hs1 in Hrun. lia.
    + by rewrite <- Hstep.
Qed.

Lemma dead_render (s : Sys) :
  dead s →
  render s =
    Some {| welcome := true; bubbles := []; typingIndicator := false;
            errorText := Some initError; inputValue := userInput s;
            inputDisabled := false;
            sendDisabled := negb (JS.truthy (JS.trim (userInput s))) |}.
Proof.
  intros (Hm & Hc & He & Hl & Ha & Hmsg).
  unfold render, conversation. rewrite Hmsg, He, Hl. done.
Qed.

(** Once [initChat] has failed the page stays as [dead] describes. *)
Lemma failed_init_dead (evs : list Event) (s : Sys) :
  run initial evs = Some s → Mount false ∈ evs → dead s.
Proof.
  intros Hrun (pre & post & ->)%list_elem_of_split.
  rewrite run_app in Hrun.
  destruct (run initial pre) as [s1|] eqn:Hpre; [|done]. simpl in Hrun.
  destruct (mounted s1) eqn:Hm1; [done|]. simpl in Hrun.
  eapply dead_run; [|exact Hrun]. apply (dead_initChat s1).
  - eapply wf_run; [apply wf_initial|done].
  - simpl. by rewrite Hm1.
Qed.

(** C6. In a run of the page in which [initChat] failed, no session ever
    exists, the initialization error is recorded and shown, every submit
    leaves the state as it is, and [initChat] is never run again; in every
    run [initChat], the only place that creates a session, runs at most
    once. *)
Theorem C6_failed_init_is_final (evs : list Event) (s : Sys) :
  run initial evs = Some s →
  length (List.filter isMount evs) ≤ 1 ∧
  (Mount false ∈ evs →
   chat s = None ∧
   error s = Some initError ∧
   errorText <$> render s = Some (Some initError) ∧
   (∀ created, step s (Mount created) = None) ∧
   step s Submit = Some s ∧
   (∀ o, handleSendMessage s o = Some s)).
Proof.
  intros Hrun. split; [apply (run_mounts evs initial s Hrun)|].
  intros Hin. pose proof (failed_init_dead evs s Hrun Hin) as Hdead.
  pose proof Hdead as (Hm & Hc & He & Hl & Ha & Hmsg).
  split_and!; [done|done| | | |].
  - by rewrite dead_render.
  - intros created. simpl. by rewrite Hm.
  - simpl. by rewrite sendStart_early by by apply dead_returnsEarly.
  - intros o. unfold handleSendMessage. by rewrite dead_returnsEarly.
Qed.

Lemma C6_witness :
  run initial noSessionTrace = Some noSession ∧
  length (List.filter isMount noSessionTrace) ≤ 1 ∧
  (Mount false ∈ noSessionTrace →
   chat noSession = None ∧
   error noSession = Some initError ∧
   errorText <$> render noSession = Some (Some initError) ∧
   (∀ created, step noSession (Mount created) = None) ∧
   step noSession Submit = Some noSession ∧
   (∀ o, handleSendMessage noSession o = Some noSession)).
Proof.
  split; [reflexivity|].
  apply (C6_failed_init_is_final noSessionTrace noSession).
  reflexivity.
Defined.

(** ** The rendered page *)

(** The claim C8 fails on the text input: with an empty input and no send
    in flight the submit control is disabled and the text input is not. *)
Lemma C8_counterexample :
  JS.trim (userInput initial) = [] ∧
  render initial =
    Some {| welcome := true; bubbles := []; typingIndicator := false;
            errorText := None; inputValue := []; inputDisabled := false;
            sendDisabled := true |}.
Proof. split; reflexivity. Qed.

(** C8, amended. In every rendered state the submit control is disabled
    exactly when a send is in flight or the input is blank, and the text
    input is disabled exactly when a send is in flight. *)
Theorem C8_disabled_controls (s : Sys) (view : View) :
  render s = Some view →
  (sendDisabled view = true ↔
   isLoading s = true ∨ JS.trim (userInput s) = []) ∧
  (inputDisabled view = true ↔ isLoading s = true).
Proof.
  unfold render. destruct (conversation s) as [v|]; [|done]. simpl.
  intros [= <-]. simpl. split; [|done].
  rewrite orb_true_iff, negb_true_iff.
  destruct (JS.trim (userInput s)); simpl; intuition congruence.
Qed.

Lemma C8_witness :
  render midStream = Some midStreamView ∧
  (sendDisabled midStreamView = true ↔
   isLoading midStream = true ∨ JS.trim (userInput midStream) = []) ∧
  (inputDisabled midStreamView = true ↔ isLoading midStream = true).
Proof.
  split; [reflexivity|].
  apply (C8_disabled_controls midStream midStreamView). reflexivity.
Defined.

(** The claim C9 fails on the welcome placeholder: after a failed
    [initChat] it is still shown, together with the error. *)
Lemma C9_counterexample :
  run initial [Mount false] ≫= render =
    Some {| welcome := true; bubbles := []; typingIndicator := false;
            errorText := Some initError; inputValue := [];
            inputDisabled := false; sendDisabled := true |}.
Proof. reflexivity. Qed.

(** C9, amended. The first rendering, and the rendering after [initChat]
    succeeded, show no message and the welcome placeholder. In every state
    of a run in which [initChat] failed, the page shows no message, the
    welcome placeholder and, with it, the initialization error, and a
    submit leaves the state as it is, there being no session. *)
Theorem C9_initial_and_failed_init (evs : list Event) (s : Sys) :
  run initial evs = Some s → Mount false ∈ evs →
  (∀ created : bool,
     (if created then run initial [Mount true] else Some initial) ≫= render =
       Some {| welcome := true; bubbles := []; typingIndicator := false;
               errorText := None; inputValue := []; inputDisabled := false;
               sendDisabled := true |}) ∧
  (∃ view, render s = Some view ∧
           bubbles view = [] ∧ welcome view = true ∧
           errorText view = Some initError) ∧
  chat s = None ∧
  step s Submit = Some s ∧
  (∀ o, handleSendMessage s o = Some s).
Proof.
  intros Hrun Hin. split; [by intros []|].
  pose proof (failed_init_dead evs s Hrun Hin) as Hdead.
  pose proof Hdead as (Hm & Hc & He & Hl & Ha & Hmsg).
  split_and!; [|done| |].
  - eexists. split; [by apply dead_render|done].
  - simpl. by rewrite sendStart_early by by apply dead_returnsEarly.
  - intros o. unfold handleSendMessage. by rewrite dead_returnsEarly.
Qed.

Lemma C9_witness :
  run initial noSessionTrace = Some noSession ∧
  Mount false ∈ noSessionTrace ∧
  (∀ created : bool,
     (if created then run initial [Mount true] else Some initial) ≫= render =
       Some {| welcome := true; bubbles := []; typingIndicator := false;
               errorText := None; inputValue := []; inputDisabled := false;
               sendDisabled := true |}) ∧
  (∃ view, render noSession = Some view ∧
           bubbles view = [] ∧ welcome view = true ∧
           errorText view = Some initError) ∧
  chat noSession = None ∧
  step noSession Submit = Some noSession ∧
  (∀ o, handleSendMessage noSession o = Some noSession).
Proof.
  split; [reflexivity|]. split; [apply list_elem_of_here|].
  apply (C9_initial_and_failed_init noSessionTrace noSession).
  - reflexivity.
  - apply list_elem_of_here.
Defined.

(** * Further properties of the page *)

(** ** Induction over the states of the page *)

Lemma reachable_step (s s' : Sys) (ev : Event) :
  reachable s → step s ev = Some s' → reachable s'.
Proof.
  intros Hs Hstep. apply (reachable_run [ev] s s' Hs). simpl. by rewrite Hstep.
Qed.

Lemma run_invariant (P : Sys → Prop) :
  (∀ s ev s', reachable s → P s → step s ev = Some s' → P s') →
  ∀ evs s s', reachable s → P s → run s evs = Some s' → P s'.
Proof.
  intros Hstep evs. induction evs as [|ev evs IH]; intros s s' Hs HP; simpl.
  - by intros [= <-].
  - destruct (step s ev) as [s1|] eqn:H1; [|done]. simpl.
    apply IH; [by eapply reachable_step|by eapply Hstep].
Qed.

Lemma reachable_invariant (P : Sys → Prop) :
  P initial →
  (∀ s ev s', reachable s → P s → step s ev = Some s' → P s') →
  ∀ s, reachable s → P s.
Proof.
  intros H0 Hstep s [evs Hevs].
  apply (run_invariant P Hstep evs initial s); [by exists []|done|done].
Qed.

(** The cases of one event, with what each does to the cells other than
    [messages]. *)
Lemma step_cases (s s' : Sys) (ev : Event) :
  wf s → step s ev = Some s' →
  (∃ created, ev = Mount created ∧ mounted s = false ∧ chat s = None ∧
              isLoading s = false ∧
              s' = initChat created (setMounted true s))
  ∨ (∃ value, ev = Change value ∧ isLoading s = false ∧
              s' = setUserInput value s)
  ∨ (ev = Submit ∧ returnsEarly s = true ∧ s' = s)
  ∨ (ev = Submit ∧ returnsEarly s = false ∧ s' = sendStart s)
  ∨ (∃ c h, ev = Chunk c ∧ isLoading s = true ∧ s' = setStore h s)
  ∨ (ev = Done ∧ isLoading s = true ∧ s' = sendFinally s)
  ∨ (ev = Fail ∧ isLoading s = true ∧ s' = sendFinally (sendCatch s)).
Proof.
  intros Hs. pose proof (wf_loading s Hs) as Hl.
  destruct ev as [created|value| |c| |]; simpl.
  - destruct (mounted s) eqn:Hm; [done|]. intros [= <-]. left.
    exists created. pose proof (wf_unmounted s Hs Hm) as Hc.
    split_and!; [done|done|done| |done].
    rewrite Hl. destruct (awaiting s) eqn:Ha; [|done].
    destruct (wf_open s Hs Ha) as (_ & [c Hc'] & _). congruence.
  - destruct (isLoading s) eqn:Hld; [done|]. intros [= <-].
    right; left. by exists value.
  - intros [= <-]. destruct (returnsEarly s) eqn:Hg.
    + right; right; left. by rewrite sendStart_early.
    + right; right; right; left. done.
  - destruct (awaiting s) eqn:Ha; [|done]. intros [h ->]%applyChunk_fields.
    do 4 right; left. by exists c, h.
  - destruct (awaiting s) eqn:Ha; [|done]. intros [= <-]. do 5 right; left. done.
  - destruct (awaiting s) eqn:Ha; [|done]. intros [= <-]. do 6 right. done.
Qed.

(** ** What is rendered *)

Lemma render_Some (s : Sys) (v : list Message) :
  conversation s = Some v →
  render s =
    Some {| welcome := bool_decide (length v = 0) && negb (isLoading s);
            bubbles := v;
            typingIndicator :=
              isLoading s && negb (bool_decide (role <$> last v = Some model));
            errorText :=
              match error s with
              | Some e => if JS.truthy e then Some e else None
              | None => None
              end;
            inputValue := userInput s;
            inputDisabled := isLoading s;
            sendDisabled :=
              isLoading s || negb (JS.truthy (JS.trim (userInput s))) |}.
Proof. intros Hv. unfold render. by rewrite Hv. Qed.

Lemma render_inv (s : Sys) (view : View) :
  render s = Some view → conversation s = Some (bubbles view).
Proof.
  unfold render. destruct (conversation s) as [v|]; [|done]. simpl.
  by intros [= <-].
Qed.

(** While a send is in flight the last message is its model message. *)
Lemma loading_last (s : Sys) (v : list Message) :
  wf s → isLoading s = true → conversation s = Some v →
  ∃ pre tu tp, v = pre ++ [mkMessage user tu; mkMessage model tp].
Proof.
  intros Hs Hl Hv. apply (conversation_open s v Hs); [|done].
  by rewrite <- (wf_loading s Hs).
Qed.

(** X1. The typing indicator of lines 110 to 112 is never rendered: it
    asks for a send in flight whose last message is not a model message,
    and a send raises [isLoading] and appends its model placeholder
    before the page is rendered again. *)
Theorem X1_typing_indicator_never_shown (s : Sys) (view : View) :
  reachable s → render s = Some view → typingIndicator view = false.
Proof.
  intros Hs%reachable_wf Hr. pose proof (render_inv s view Hr) as Hv.
  rewrite (render_Some s _ Hv) in Hr. injection Hr as <-. simpl.
  destruct (isLoading s) eqn:Hl; [|done]. simpl.
  destruct (loading_last s _ Hs Hl Hv) as (pre & tu & tp & ->).
  replace (pre ++ [mkMessage user tu; mkMessage model tp])
    with ((pre ++ [mkMessage user tu]) ++ [mkMessage model tp])
    by by rewrite <- (assoc_L (++)).
  by rewrite last_snoc.
Qed.

Lemma X1_witness :
  reachable midStream ∧ render midStream = Some midStreamView ∧
  typingIndicator midStreamView = false.
Proof.
  split; [exists midStreamTrace; reflexivity|]. split; [reflexivity|].
  apply (X1_typing_indicator_never_shown midStream midStreamView).
  - exists midStreamTrace; reflexivity.
  - reflexivity.
Defined.

(** X2. The welcome placeholder is rendered exactly when the Conversation
    is empty: the second condition of line 97, [!isLoading], never
    decides, since a send in flight has put its messages into the
    Conversation. *)
Theorem X2_welcome_iff_no_message (s : Sys) (view : View) :
  reachable s → render s = Some view →
  (welcome view = true ↔ bubbles view = []).
Proof.
  intros Hs%reachable_wf Hr. pose proof (render_inv s view Hr) as Hv.
  rewrite (render_Some s _ Hv) in Hr. injection Hr as <-. simpl.
  rewrite andb_true_iff, bool_decide_eq_true, negb_true_iff, length_zero_iff_nil.
  split; [by intros [? _]|]. intros Hnil. split; [done|].
  destruct (isLoading s) eqn:Hl; [|done].
  destruct (loading_last s _ Hs Hl Hv) as (pre & tu & tp & Heq).
  rewrite Hnil in Heq. by destruct pre.
Qed.

Lemma X2_witness :
  reachable midStream ∧ render midStream = Some midStreamView ∧
  (welcome midStreamView = true ↔ bubbles midStreamView = []).
Proof.
  split; [exists midStreamTrace; reflexivity|]. split; [reflexivity|].
  apply (X2_welcome_iff_no_message midStream midStreamView).
  - exists midStreamTrace; reflexivity.
  - reflexivity.
Defined.

(** X3. From the first submit that passes the guard on, the Conversation
    is never empty again and the welcome placeholder is never rendered
    again, whatever the stream does and whatever happens later: the
    rollback of a failed send removes the model message only. *)
Theorem X3_welcome_gone_after_first_send (s s' : Sys) (evs : list Event) :
  reachable s → returnsEarly s = false → run s (Submit :: evs) = Some s' →
  ∃ view, render s' = Some view ∧ welcome view = false ∧ bubbles view ≠ [].
Proof.
  intros Hs%reachable_wf Hg Hrun. simpl in Hrun.
  destruct (wf_conversation s Hs) as [v Hv].
  pose proof (conversation_sendStart s v Hs Hg Hv) as Hv1.
  destruct (settled_run evs (sendStart s) s' _ (wf_sendStart s Hs) Hv1 Hrun)
    as (v' & Hv' & Hpre).
  assert (v' ≠ []) as Hne.
  { unfold settled at 1 in Hpre. rewrite sendStart_passed in Hpre by done.
    simpl in Hpre. rewrite take_snoc2 in Hpre.
    pose proof (settled_prefix s' v') as Hpre'.
    assert ((v ++ [mkMessage user (userInput s)]) `prefix_of` v') as [k ->]
      by by etrans.
    by destruct v. }
  eexists. split; [by apply render_Some|]. simpl. split; [|done].
  apply andb_false_iff. left. apply bool_decide_eq_false.
  by rewrite length_zero_iff_nil.
Qed.

Lemma X3_witness :
  reachable typedHi ∧ returnsEarly typedHi = false ∧
  run typedHi [Submit; Chunk (Some (JS.lit "Hi")); Fail] = Some failedTurn ∧
  ∃ view,
    render failedTurn = Some view ∧ welcome view = false ∧ bubbles view ≠ [].
Proof.
  split; [exists typedHiTrace; reflexivity|]. split; [reflexivity|].
  split; [reflexivity|].
  apply (X3_welcome_gone_after_first_send typedHi failedTurn
           [Chunk (Some (JS.lit "Hi")); Fail]).
  - exists typedHiTrace; reflexivity.
  - reflexivity.
  - reflexivity.
Defined.

(** ** The session and the error *)

(** Only a successful [initChat] writes [chat]. *)
Lemma step_chat (s s' : Sys) (ev : Event) :
  wf s → step s ev = Some s' →
  chat s' = chat s ∨ (ev = Mount true ∧ chat s = None ∧ chat s' = Some newChat).
Proof.
  intros Hs Hstep.
  destruct (step_cases s s' ev Hs Hstep) as
    [(created & -> & Hm & Hc & Hl & ->) | [(value & -> & Hl & ->) |
    [(-> & Hg & ->) | [(-> & Hg & ->) | [(c & h & -> & Hl & ->) |
    [(-> & Hl & ->) | (-> & Hl & ->)]]]]]]; try by left.
  - destruct created; [by right|by left].
  - left. by rewrite sendStart_passed.
Qed.

Lemma chat_newChat (s : Sys) (c : Chat) :
  reachable s → chat s = Some c → c = newChat.
Proof.
  intros Hs. revert c.
  apply (reachable_invariant (λ s, ∀ c, chat s = Some c → c = newChat));
    [done| |done].
  clear s Hs. intros s ev s' Hs%reachable_wf IH Hstep c.
  destruct (step_chat s s' ev Hs Hstep) as [-> | (_ & _ & ->)]; [apply IH|].
  by intros [= <-].
Qed.

(** X4. A session, once created, is kept as it is for the rest of the
    lifetime of the page: no event replaces or drops it, and it is the
    session configured in [initChat]. *)
Theorem X4_session_is_kept (s s' : Sys) (c : Chat) (evs : list Event) :
  reachable s → chat s = Some c → run s evs = Some s' →
  c = newChat ∧ chat s' = Some c.
Proof.
  intros Hs Hc Hrun. split; [by eapply chat_newChat|].
  apply (run_invariant (λ s, chat s = Some c)) with evs s; try done.
  clear. intros s ev s' Hs%reachable_wf Hc Hstep.
  destruct (step_chat s s' ev Hs Hstep) as [-> | (_ & Hn & _)]; [done|].
  congruence.
Qed.

Lemma X4_witness :
  reachable typedHi ∧ chat typedHi = Some newChat ∧
  run typedHi [Submit; Chunk (Some (JS.lit "Hi")); Fail] = Some failedTurn ∧
  newChat = newChat ∧ chat failedTurn = Some newChat.
Proof.
  split; [exists typedHiTrace; reflexivity|]. split; [reflexivity|].
  split; [reflexivity|].
  apply (X4_session_is_kept typedHi failedTurn newChat
           [Submit; Chunk (Some (JS.lit "Hi")); Fail]).
  - exists typedHiTrace; reflexivity.
  - reflexivity.
  - reflexivity.
Defined.

Lemma errors_differ : initError ≠ streamError.
Proof. intros H. vm_compute in H. discriminate. Qed.

Lemma errorInv_reachable (s : Sys) : reachable s → errorInv s.
Proof.
  apply (reachable_invariant errorInv).
  { unfold errorInv; simpl. auto. }
  clear s. intros s ev s' Hs%reachable_wf (Hm & Hl & He) Hstep.
  destruct (step_cases s s' ev Hs Hstep) as
    [(created & -> & Hmnt & Hc & Hld & ->) | [(value & -> & Hld & ->) |
    [(-> & Hg & ->) | [(-> & Hg & ->) | [(c & h & -> & Hld & ->) |
    [(-> & Hld & ->) | (-> & Hld & ->)]]]]]]; unfold errorInv.
  - pose proof (Hm Hmnt) as Herr.
    destruct created; simpl; rewrite ?Hld, ?Herr, ?Hc; split_and!; auto;
      by intros [=].
  - simpl. rewrite Hld. split_and!; auto; try by intros [=].
  - done.
  - rewrite sendStart_passed by done. simpl. auto.
  - simpl. auto.
  - simpl. split_and!; auto; try by intros [=].
  - assert (is_Some (chat s)) as Hc.
    { apply (wf_open s Hs). by rewrite <- (wf_loading s Hs). }
    simpl. split_and!; auto; try by intros [=].
    intros Hmnt. rewrite (wf_unmounted s Hs Hmnt) in Hc. by destruct Hc.
Qed.

(** X5. While a send is in flight no error is recorded and none is
    rendered: a send clears [error] before its first [await] (line 53) and
    only its own end can set it again. *)
Theorem X5_no_error_while_streaming (s : Sys) (view : View) :
  reachable s → isLoading s = true → render s = Some view →
  error s = None ∧ errorText view = None.
Proof.
  intros (_ & Hl & _)%errorInv_reachable Hld Hr.
  pose proof (render_inv s view Hr) as Hv.
  rewrite (render_Some s _ Hv) in Hr. injection Hr as <-. simpl.
  by rewrite (Hl Hld).
Qed.

Lemma X5_witness :
  reachable midStream ∧ isLoading midStream = true ∧
  render midStream = Some midStreamView ∧
  error midStream = None ∧ errorText midStreamView = None.
Proof.
  split; [exists midStreamTrace; reflexivity|]. split; [reflexivity|].
  split; [reflexivity|].
  apply (X5_no_error_while_streaming midStream midStreamView).
  - exists midStreamTrace; reflexivity.
  - reflexivity.
  - reflexivity.
Defined.

(** X6. A recorded error stays as it is until a submit passes the guard,
    which clears it: neither typing nor an ignored submit dismisses it,
    and no other event can occur while it is recorded. *)
Theorem X6_error_stays_until_next_send (s s' : Sys) (ev : Event) (e : JS.str) :
  reachable s → error s = Some e → step s ev = Some s' →
  error s' = Some e
  ∨ (ev = Submit ∧ returnsEarly s = false ∧ error s' = None).
Proof.
  intros Hs He Hstep. pose proof (errorInv_reachable s Hs) as (Hm & Hl & _).
  apply reachable_wf in Hs.
  assert (isLoading s = false) as Hld.
  { destruct (isLoading s); [|done]. rewrite Hl in He; done. }
  destruct (step_cases s s' ev Hs Hstep) as
    [(created & -> & Hmnt & _) | [(value & -> & _ & ->) |
    [(-> & Hg & ->) | [(-> & Hg & ->) | [(c & h & -> & Hld' & _) |
    [(-> & Hld' & _) | (-> & Hld' & _)]]]]]]; try congruence.
  - rewrite Hm in He; done.
  - by left.
  - by left.
  - right. by rewrite sendStart_passed.
Qed.

Lemma X6_witness :
  reachable failedTurn ∧ error failedTurn = Some streamError ∧
  step failedTurn (Change (JS.lit "again")) =
    Some (setUserInput (JS.lit "again") failedTurn) ∧
  (error (setUserInput (JS.lit "again") failedTurn) = Some streamError
   ∨ (Change (JS.lit "again") = Submit ∧ returnsEarly failedTurn = false ∧
      error (setUserInput (JS.lit "again") failedTurn) = None)).
Proof.
  split; [exists failedTurnTrace; reflexivity|]. split; [reflexivity|].
  split; [reflexivity|].
  apply (X6_error_stays_until_next_send failedTurn _ (Change (JS.lit "again"))).
  - exists failedTurnTrace; reflexivity.
  - reflexivity.
  - reflexivity.
Defined.

(** X7. The recorded error tells the two failures apart: it is nothing,
    the initialization error or the stream error; the initialization
    error is recorded only without a session, the stream error only with
    one. *)
Theorem X7_error_kinds (s : Sys) :
  reachable s →
  (error s = None ∨ error s = Some initError ∨ error s = Some streamError) ∧
  (error s = Some initError → chat s = None) ∧
  (error s = Some streamError → is_Some (chat s)).
Proof.
  intros (_ & _ & He)%errorInv_reachable. pose proof errors_differ as Hd.
  destruct He as [He | [[He Hc] | [He Hc]]]; rewrite He;
    split_and!; auto; intros [= H]; congruence.
Qed.

Lemma X7_witness :
  reachable failedTurn ∧
  (error failedTurn = None ∨ error failedTurn = Some initError
   ∨ error failedTurn = Some streamError) ∧
  (error failedTurn = Some initError → chat failedTurn = None) ∧
  (error failedTurn = Some streamError → is_Some (chat failedTurn)).
Proof.
  split; [exists failedTurnTrace; reflexivity|].
  apply (X7_error_kinds failedTurn). exists failedTurnTrace; reflexivity.
Defined.

(** ** The shape of the Conversation and the requests *)

(** What one event does to the Conversation and to the requests. *)
Lemma step_conversation (s s' : Sys) (ev : Event) (v : list Message) :
  wf s → conversation s = Some v → step s ev = Some s' →
  match ev with
  | Mount _ | Change _ | Done =>
      conversation s' = Some v ∧ sent s' = sent s
  | Submit =>
      if returnsEarly s then s' = s
      else conversation s' =
             Some (v ++ [mkMessage user (userInput s); mkMessage model []]) ∧
           sent s' = sent s ++ [userInput s]
  | Chunk c =>
      ∃ pre tp, v = pre ++ [mkMessage model tp] ∧
                conversation s' = Some (pre ++ [mkMessage model (tp ++ JS.toString c)]) ∧
                sent s' = sent s
  | Fail =>
      ∃ pre tu tp, v = pre ++ [mkMessage user tu; mkMessage model tp] ∧
                   conversation s' = Some (pre ++ [mkMessage user tu]) ∧
                   sent s' = sent s
  end.
Proof.
  intros Hs Hv. destruct ev as [created|value| |c| |]; simpl.
  - destruct (mounted s); [done|]. intros [= <-]. by destruct created.
  - destruct (isLoading s); [done|]. by intros [= <-].
  - intros [= <-]. destruct (returnsEarly s) eqn:Hg.
    + by apply sendStart_early.
    + split; [by apply conversation_sendStart|]. by rewrite sendStart_passed.
  - destruct (awaiting s) eqn:Ha; [|done]. intros Hc.
    destruct (conversation_applyChunk s c v Hs Ha Hv)
      as (pre & tp & h & -> & Hc' & Hv').
    rewrite Hc' in Hc. injection Hc as <-. by exists pre, tp.
  - destruct (awaiting s) eqn:Ha; [|done]. by intros [= <-].
  - destruct (awaiting s) eqn:Ha; [|done]. intros [= <-].
    destruct (conversation_open s v Hs Ha Hv) as (pre & tu & tp & ->).
    exists pre, tu, tp. split_and!; [done| |done].
    by rewrite (conversation_sendCatch s _ Hv), take_snoc2.
Qed.

Lemma paired_roles (v w : list Message) :
  role <$> v = role <$> w → paired v → paired w.
Proof.
  intros Heq Hv i m Hi Hm.
  assert ((role <$> v) !! i = Some model) as Hi'.
  { rewrite Heq, list_lookup_fmap, Hi. simpl. by rewrite Hm. }
  rewrite list_lookup_fmap in Hi'.
  destruct (v !! i) as [m'|] eqn:Hvi; [|done]. injection Hi' as Hm'.
  destruct (Hv i m' Hvi Hm') as (j & u & -> & Hj & Hu).
  assert ((role <$> w) !! j = Some user) as Hj'.
  { rewrite <- Heq, list_lookup_fmap, Hj. simpl. by rewrite Hu. }
  rewrite list_lookup_fmap in Hj'.
  destruct (w !! j) as [u'|] eqn:Hwj; [|done]. injection Hj' as Hu'.
  by exists j, u'.
Qed.

Lemma paired_app_pair (v : list Message) (tu tp : JS.str) :
  paired v → paired (v ++ [mkMessage user tu; mkMessage model tp]).
Proof.
  intros Hv i m Hi Hm.
  apply lookup_app_Some in Hi as [Hi | [Hge Hi]].
  - destruct (Hv i m Hi Hm) as (j & u & -> & Hj & Hu).
    exists j, u. split_and!; [done| |done]. by apply lookup_app_l_Some.
  - destruct (i - length v) as [|[|k]] eqn:Hk; simpl in Hi; [| |done].
    + injection Hi as <-. done.
    + exists (length v), (mkMessage user tu). split_and!; [lia| |done].
      by rewrite list_lookup_middle.
Qed.

Lemma paired_snoc_inv (v : list Message) (m : Message) :
  paired (v ++ [m]) → paired v.
Proof.
  intros Hv i m' Hi Hm'.
  destruct (Hv i m' (lookup_app_l_Some _ _ _ _ Hi) Hm') as (j & u & -> & Hj & Hu).
  exists j, u. split_and!; [done| |done].
  apply lookup_lt_Some in Hi. by rewrite lookup_app_l in Hj by lia.
Qed.

Lemma paired_reachable (s : Sys) (v : list Message) :
  reachable s → conversation s = Some v → paired v.
Proof.
  intros Hs. revert v.
  apply (reachable_invariant (λ s, ∀ v, conversation s = Some v → paired v));
    [| |done].
  { intros v [= <-] i m Hi. done. }
  clear s Hs. intros s ev s' Hs%reachable_wf IH Hstep v' Hv'.
  destruct (wf_conversation s Hs) as [v Hv]. specialize (IH v Hv).
  pose proof (step_conversation s s' ev v Hs Hv Hstep) as Hcase.
  destruct ev as [created|value| |c| |].
  - destruct Hcase as [Hc _]. rewrite Hc in Hv'. by injection Hv' as <-.
  - destruct Hcase as [Hc _]. rewrite Hc in Hv'. by injection Hv' as <-.
  - destruct (returnsEarly s).
    + subst s'. rewrite Hv in Hv'. by injection Hv' as <-.
    + destruct Hcase as [Hc _]. rewrite Hc in Hv'. injection Hv' as <-.
      by apply paired_app_pair.
  - destruct Hcase as (pre & tp & -> & Hc & _).
    rewrite Hc in Hv'. injection Hv' as <-.
    eapply paired_roles; [|exact IH]. by rewrite !fmap_app.
  - destruct Hcase as [Hc _]. rewrite Hc in Hv'. by injection Hv' as <-.
  - destruct Hcase as (pre & tu & tp & -> & Hc & _).
    rewrite Hc in Hv'. injection Hv' as <-.
    apply (paired_snoc_inv _ (mkMessage model tp)).
    by rewrite <- (assoc_L (++)).
Qed.

(** X8. In every state of the page each model message of the Conversation
    directly follows a user message; so the Conversation starts with a
    user message and never holds two model messages in a row, although
    two user messages in a row occur after a failed send. *)
Theorem X8_model_follows_user (s : Sys) (v : list Message) :
  reachable s → conversation s = Some v →
  (∀ i m, v !! i = Some m → role m = model →
          ∃ j u, i = S j ∧ v !! j = Some u ∧ role u = user) ∧
  (∀ m, v !! 0 = Some m → role m = user).
Proof.
  intros Hs Hv. pose proof (paired_reachable s v Hs Hv) as Hp.
  split; [exact Hp|]. intros m Hm. destruct (role m) eqn:Hr; [done|].
  by destruct (Hp 0 m Hm Hr) as (j & u & ? & _).
Qed.

Lemma X8_witness :
  reachable secondTurn ∧
  conversation secondTurn =
    Some [mkMessage user (JS.lit "hello"); mkMessage model (JS.lit "Hi!")] ∧
  (∀ i m,
     [mkMessage user (JS.lit "hello"); mkMessage model (JS.lit "Hi!")] !! i
       = Some m →
     role m = model →
     ∃ j u, i = S j ∧
            [mkMessage user (JS.lit "hello"); mkMessage model (JS.lit "Hi!")]
              !! j = Some u ∧
            role u = user) ∧
  (∀ m,
     [mkMessage user (JS.lit "hello"); mkMessage model (JS.lit "Hi!")] !! 0
       = Some m →
     role m = user).
Proof.
  split; [exists secondTurnTrace; reflexivity|]. split; [reflexivity|].
  apply (X8_model_follows_user secondTurn).
  - exists secondTurnTrace; reflexivity.
  - reflexivity.
Defined.

Lemma userTexts_app (v w : list Message) :
  userTexts (v ++ w) = userTexts v ++ userTexts w.
Proof. unfold userTexts. by rewrite filter_app, fmap_app. Qed.

(** X9. The user messages of the Conversation are the requests made to
    the service: in every state of the page their texts, in order, are
    the messages passed to [chat.sendMessageStream] so far. A failed send
    keeps its user message and nothing is sent a second time. *)
Theorem X9_user_messages_are_the_requests (s : Sys) (v : list Message) :
  reachable s → conversation s = Some v → userTexts v = sent s.
Proof.
  intros Hs. revert v.
  apply (reachable_invariant
           (λ s, ∀ v, conversation s = Some v → userTexts v = sent s));
    [| |done].
  { by intros v [= <-]. }
  clear s Hs. intros s ev s' Hs%reachable_wf IH Hstep v' Hv'.
  destruct (wf_conversation s Hs) as [v Hv]. specialize (IH v Hv).
  pose proof (step_conversation s s' ev v Hs Hv Hstep) as Hcase.
  destruct ev as [created|value| |c| |].
  - destruct Hcase as [Hc ->]. rewrite Hc in Hv'. by injection Hv' as <-.
  - destruct Hcase as [Hc ->]. rewrite Hc in Hv'. by injection Hv' as <-.
  - destruct (returnsEarly s).
    + subst s'. rewrite Hv in Hv'. by injection Hv' as <-.
    + destruct Hcase as [Hc ->]. rewrite Hc in Hv'. injection Hv' as <-.
      by rewrite userTexts_app, IH.
  - destruct Hcase as (pre & tp & -> & Hc & ->).
    rewrite Hc in Hv'. injection Hv' as <-.
    rewrite userTexts_app in IH |- *. exact IH.
  - destruct Hcase as [Hc ->]. rewrite Hc in Hv'. by injection Hv' as <-.
  - destruct Hcase as (pre & tu & tp & -> & Hc & ->).
    rewrite Hc in Hv'. injection Hv' as <-.
    rewrite userTexts_app in IH |- *. exact IH.
Qed.

Lemma X9_witness :
  reachable failedTurn ∧
  conversation failedTurn = Some [mkMessage user (JS.lit " hi ")] ∧
  userTexts [mkMessage user (JS.lit " hi ")] = sent failedTurn.
Proof.
  split; [exists failedTurnTrace; reflexivity|]. split; [reflexivity|].
  apply (X9_user_messages_are_the_requests failedTurn).
  - exists failedTurnTrace; reflexivity.
  - reflexivity.
Defined.

(** X10. Every request is matched by one end of its stream and at most
    one request is outstanding: in every run of the page the number of
    requests made is the number of streams that have ended, normally or
    not, plus one if a send is in flight. *)
Theorem X10_requests_and_stream_ends (evs : list Event) (s : Sys) :
  run initial evs = Some s →
  length (sent s) =
    length (List.filter isEnd evs) + (if isLoading s then 1 else 0).
Proof.
  intros Hrun.
  enough (∀ evs s0 s, wf s0 → run s0 evs = Some s →
            length (sent s) + (if isLoading s0 then 1 else 0) =
            length (sent s0) + length (List.filter isEnd evs)
            + (if isLoading s then 1 else 0)) as Hgen.
  { specialize (Hgen evs initial s wf_initial Hrun). simpl in Hgen. lia. }
  clear. intros evs. induction evs as [|ev evs IH]; intros s0 s Hs0; simpl.
  - intros [= <-]. lia.
  - destruct (step s0 ev) as [s1|] eqn:Hstep; [|done]. simpl. intros Hrun.
    specialize (IH s1 s (wf_step s0 s1 ev Hs0 Hstep) Hrun).
    destruct (step_cases s0 s1 ev Hs0 Hstep) as
      [(created & -> & _ & _ & Hl & ->) | [(value & -> & Hl & ->) |
      [(-> & Hg & ->) | [(-> & Hg & ->) | [(c & h & -> & Hl & ->) |
      [(-> & Hl & ->) | (-> & Hl & ->)]]]]]]; clear Hstep Hrun.
    + destruct created; simpl in *; rewrite Hl in *; lia.
    + simpl in *. rewrite Hl in *. lia.
    + simpl. lia.
    + pose proof Hg as (_ & Hl & _)%returnsEarly_false.
      rewrite sendStart_passed in IH by done.
      simpl in *. rewrite length_app in IH. simpl in IH. rewrite Hl. lia.
    + simpl in *. rewrite Hl in *. lia.
    + simpl in *. rewrite Hl. lia.
    + simpl in *. rewrite Hl. lia.
Qed.

(** ** The controls and the guard *)

(** X11. The submit control and the guard of the handler agree: a submit
    while the control is disabled leaves the state as it is, and when a
    session exists the control is disabled exactly when the handler
    returns early. *)
Theorem X11_button_agrees_with_guard (s : Sys) (view : View) :
  render s = Some view →
  (sendDisabled view = true → step s Submit = Some s) ∧
  (is_Some (chat s) → sendDisabled view = returnsEarly s).
Proof.
  intros Hr. pose proof (render_inv s view Hr) as Hv.
  rewrite (render_Some s _ Hv) in Hr. injection Hr as <-. simpl.
  unfold returnsEarly. split.
  - intros Hd. rewrite sendStart_early; [done|]. unfold returnsEarly.
    apply orb_true_iff in Hd as [-> | ->]; by rewrite ?orb_true_r.
  - intros Hc. rewrite (bool_decide_eq_true_2 _ Hc). simpl.
    rewrite orb_false_r. apply orb_comm.
Qed.

Lemma X11_witness :
  render midStream = Some midStreamView ∧
  (sendDisabled midStreamView = true → step midStream Submit = Some midStream) ∧
  (is_Some (chat midStream) →
   sendDisabled midStreamView = returnsEarly midStream).
Proof.
  split; [reflexivity|].
  apply (X11_button_agrees_with_guard midStream midStreamView). reflexivity.
Defined.

(** X12. Without a session the controls do not show it: after a failed
    [initChat] the text input stays enabled, any text can be typed, the
    submit control is enabled as soon as the text is not blank, and the
    submit still leaves the state as it is, the typed text included. *)
Theorem X12_controls_enabled_without_session
    (evs : list Event) (s : Sys) (value : JS.str) :
  run initial evs = Some s → Mount false ∈ evs →
  ∃ view,
    step s (Change value) = Some (setUserInput value s) ∧
    render (setUserInput value s) = Some view ∧
    inputDisabled view = false ∧
    (JS.trim value ≠ [] → sendDisabled view = false) ∧
    step (setUserInput value s) Submit = Some (setUserInput value s).
Proof.
  intros Hrun Hin. pose proof (failed_init_dead evs s Hrun Hin) as Hdead.
  assert (step s (Change value) = Some (setUserInput value s)) as Hstep.
  { destruct Hdead as (_ & _ & _ & Hl & _). simpl. by rewrite Hl. }
  pose proof (dead_step _ _ _ Hdead Hstep) as Hdead'.
  eexists. split_and!; [done|by apply dead_render|done| |].
  - simpl. by destruct (JS.trim value).
  - simpl. rewrite sendStart_early; [done|].
    apply dead_returnsEarly. by destruct Hdead' as (_ & ? & _).
Qed.

Lemma X12_witness :
  run initial noSessionTrace = Some noSession ∧
  Mount false ∈ noSessionTrace ∧
  ∃ view,
    step noSession (Change (JS.lit "anyone?")) =
      Some (setUserInput (JS.lit "anyone?") noSession) ∧
    render (setUserInput (JS.lit "anyone?") noSession) = Some view ∧
    inputDisabled view = false ∧
    (JS.trim (JS.lit "anyone?") ≠ [] → sendDisabled view = false) ∧
    step (setUserInput (JS.lit "anyone?") noSession) Submit =
      Some (setUserInput (JS.lit "anyone?") noSession).
Proof.
  split; [reflexivity|]. split; [apply list_elem_of_here|].
  apply (X12_controls_enabled_without_session noSessionTrace noSession).
  - reflexivity.
  - apply list_elem_of_here.
Defined.

(** X13. With a session and no send in flight, a submit is ignored
    exactly when every code unit of the input is white space (the empty
    input included): white space at the ends or inside a text that has
    another character does not stop the send. *)
Theorem X13_guard_rejects_blank_only (s : Sys) :
  isLoading s = false → is_Some (chat s) →
  (step s Submit = Some s ↔ forallb JS.isWhiteSpace (userInput s) = true).
Proof.
  intros Hl Hc. rewrite <- trim_nil. simpl. split.
  - intros [= Heq]. destruct (returnsEarly s) eqn:Hg.
    + apply returnsEarly_true in Hg as [Ht | [Hl' | Hc']]; [done|congruence|].
      rewrite Hc' in Hc. by destruct Hc.
    + rewrite sendStart_passed in Heq by done.
      apply (f_equal isLoading) in Heq. simpl in Heq. congruence.
  - intros Ht. rewrite sendStart_early; [done|].
    apply returnsEarly_true. by left.
Qed.

Lemma X13_witness :
  isLoading typedHi = false ∧ is_Some (chat typedHi) ∧
  (step typedHi Submit = Some typedHi ↔
   forallb JS.isWhiteSpace (userInput typedHi) = true).
Proof.
  split; [reflexivity|]. split; [by eexists|].
  apply (X13_guard_rejects_blank_only typedHi); [reflexivity|by eexists].
Defined.

(** ** Whole sends, observed *)

(** A send that passes the guard, as events of the page. *)
Lemma run_send (s : Sys) (o : Outcome) (rest : list Event) :
  returnsEarly s = false →
  run s (Submit :: streamEvents o ++ rest) =
    s' ← handleSendMessage s o; run s' rest.
Proof.
  intros Hg. unfold handleSendMessage. rewrite Hg. simpl. apply run_app.
Qed.

(** The state a send ends in, up to the store. *)
Lemma send_result (s : Sys) (v : list Message) (cs : list (option JS.str))
    (ok : bool) :
  wf s → returnsEarly s = false → conversation s = Some v →
  ∃ s',
    handleSendMessage s (mkOutcome cs ok) = Some s' ∧
    wf s' ∧
    conversation s' =
      Some (v ++ mkMessage user (userInput s)
              :: (if ok then [mkMessage model (appended cs)] else [])) ∧
    chat s' = chat s ∧ userInput s' = [] ∧ isLoading s' = false ∧
    error s' = (if ok then None else Some streamError) ∧
    sent s' = sent s ++ [userInput s].
Proof.
  intros Hs Hg Hv.
  destruct (send_chunks s v cs Hs Hg Hv) as (h & Hcs & Hwf & Hvb).
  pose proof (handleSendMessage_passed s cs ok _ Hg Hcs) as Hsend.
  eexists. split; [exact Hsend|].
  destruct ok.
  - split_and!; [by apply wf_sendFinally|exact Hvb|..];
      by rewrite sendStart_passed.
  - split_and!; [by apply wf_sendCatch| |..];
      [|by rewrite sendStart_passed..].
    by rewrite (conversation_sendCatch _ _ Hvb), take_snoc2.
Qed.

Lemma X10_witness :
  run initial failedTurnTrace = Some failedTurn ∧
  length (sent failedTurn) =
    length (List.filter isEnd failedTurnTrace)
    + (if isLoading failedTurn then 1 else 0).
Proof.
  split; [reflexivity|].
  apply (X10_requests_and_stream_ends failedTurnTrace failedTurn). reflexivity.
Defined.

(** X14. What is rendered after a send depends on what the chunks of the
    stream appended in total (the text of a chunk, the word [undefined]
    for a chunk without a text part) and not on how the stream was cut
    into chunks: two streams that end normally and append the same code
    units leave the same page. *)
Theorem X14_chunking_is_not_observable (s : Sys)
    (cs1 cs2 : list (option JS.str)) :
  reachable s → returnsEarly s = false → appended cs1 = appended cs2 →
  ∃ view,
    handleSendMessage s (mkOutcome cs1 true) ≫= render = Some view ∧
    handleSendMessage s (mkOutcome cs2 true) ≫= render = Some view.
Proof.
  intros Hs%reachable_wf Hg Heq. destruct (wf_conversation s Hs) as [v Hv].
  destruct (send_result s v cs1 true Hs Hg Hv)
    as (s1 & -> & _ & Hv1 & _ & Hi1 & Hl1 & He1 & _).
  destruct (send_result s v cs2 true Hs Hg Hv)
    as (s2 & -> & _ & Hv2 & _ & Hi2 & Hl2 & He2 & _).
  eexists. simpl. split; [by apply render_Some|].
  rewrite (render_Some s2 _ Hv2). by rewrite Heq, Hi1, Hi2, Hl1, Hl2, He1, He2.
Qed.

Lemma X14_witness :
  reachable typedHi ∧ returnsEarly typedHi = false ∧
  appended [Some (JS.lit "Hi"); Some (JS.lit " there")] =
    appended [Some (JS.lit "Hi the"); Some []; Some (JS.lit "re")] ∧
  ∃ view,
    handleSendMessage typedHi
      (mkOutcome [Some (JS.lit "Hi"); Some (JS.lit " there")] true)
      ≫= render = Some view ∧
    handleSendMessage typedHi
      (mkOutcome [Some (JS.lit "Hi the"); Some []; Some (JS.lit "re")] true)
      ≫= render = Some view.
Proof.
  split; [exists typedHiTrace; reflexivity|]. split; [reflexivity|].
  split; [reflexivity|].
  apply (X14_chunking_is_not_observable typedHi).
  - exists typedHiTrace; reflexivity.
  - reflexivity.
  - reflexivity.
Defined.

(** X15. Nothing of a failed response stays on the page: whatever chunks
    two streams delivered before they failed, the same page is rendered
    afterwards. *)
Theorem X15_failed_response_leaves_no_trace (s : Sys) (cs1 cs2 : list (option JS.str)) :
  reachable s → returnsEarly s = false →
  ∃ view,
    handleSendMessage s (mkOutcome cs1 false) ≫= render = Some view ∧
    handleSendMessage s (mkOutcome cs2 false) ≫= render = Some view.
Proof.
  intros Hs%reachable_wf Hg. destruct (wf_conversation s Hs) as [v Hv].
  destruct (send_result s v cs1 false Hs Hg Hv)
    as (s1 & -> & _ & Hv1 & _ & Hi1 & Hl1 & He1 & _).
  destruct (send_result s v cs2 false Hs Hg Hv)
    as (s2 & -> & _ & Hv2 & _ & Hi2 & Hl2 & He2 & _).
  eexists. simpl. split; [by apply render_Some|].
  rewrite (render_Some s2 _ Hv2). by rewrite Hi1, Hi2, Hl1, Hl2, He1, He2.
Qed.

Lemma X15_witness :
  reachable typedHi ∧ returnsEarly typedHi = false ∧
  ∃ view,
    handleSendMessage typedHi (mkOutcome [] false) ≫= render = Some view ∧
    handleSendMessage typedHi (mkOutcome [Some (JS.lit "Hi"); Some (JS.lit " th")] false)
      ≫= render = Some view.
Proof.
  split; [exists typedHiTrace; reflexivity|]. split; [reflexivity|].
  apply (X15_failed_response_leaves_no_trace typedHi).
  - exists typedHiTrace; reflexivity.
  - reflexivity.
Defined.

(** X16. A manual retry: after a send that failed, a new text typed into
    the input and a second send whose stream ends normally, the
    Conversation holds the user message of the failed send, the new user
    message and the response, in this order; the error of the first send
    is cleared and both texts have been sent once. *)
Theorem X16_retry_after_failure (s : Sys) (v : list Message)
    (cs1 cs2 : list (option JS.str)) (input2 : JS.str) :
  reachable s → returnsEarly s = false → conversation s = Some v →
  JS.trim input2 ≠ [] →
  ∃ s',
    run s (retryEvents cs1 input2 cs2) = Some s' ∧
    conversation s' =
      Some (v ++ [mkMessage user (userInput s); mkMessage user input2;
                  mkMessage model (appended cs2)]) ∧
    error s' = None ∧ isLoading s' = false ∧ userInput s' = [] ∧
    sent s' = sent s ++ [userInput s; input2].
Proof.
  intros Hs%reachable_wf Hg Hv Ht.
  destruct (send_result s v cs1 false Hs Hg Hv)
    as (s1 & Hsend1 & Hs1 & Hv1 & Hc1 & Hi1 & Hl1 & He1 & Hsent1).
  assert (step s1 (Change input2) = Some (setUserInput input2 s1)) as Hstep
    by (simpl; by rewrite Hl1).
  pose proof (wf_step _ _ _ Hs1 Hstep) as Hs2.
  assert (returnsEarly (setUserInput input2 s1) = false) as Hg2.
  { apply returnsEarly_false. simpl. rewrite Hc1.
    by apply returnsEarly_false in Hg as (_ & _ & ?). }
  destruct (send_result (setUserInput input2 s1) _ cs2 true Hs2 Hg2 Hv1)
    as (s3 & Hsend3 & Hs3 & Hv3 & Hc3 & Hi3 & Hl3 & He3 & Hsent3).
  exists s3. split_and!; [|..|done|done|done|].
  - unfold retryEvents. rewrite (run_send s _ _ Hg), Hsend1. simpl.
    rewrite Hl1. simpl.
    pose proof (run_send (setUserInput input2 s1) (mkOutcome cs2 true) [] Hg2)
      as Hrun.
    rewrite (right_id_L [] (++)) in Hrun. simpl in Hrun. rewrite Hrun.
    rewrite Hsend3. done.
  - rewrite Hv3. simpl. by rewrite <- (assoc_L (++)).
  - rewrite Hsent3. simpl. rewrite Hsent1. by rewrite <- (assoc_L (++)).
Qed.

Lemma X16_witness :
  reachable typedHi ∧ returnsEarly typedHi = false ∧
  conversation typedHi = Some [] ∧ JS.trim (JS.lit "hi again") ≠ [] ∧
  ∃ s',
    run typedHi (retryEvents [Some (JS.lit "H")] (JS.lit "hi again") [Some (JS.lit "Hello")])
      = Some s' ∧
    conversation s' =
      Some ([] ++ [mkMessage user (JS.lit " hi ");
                   mkMessage user (JS.lit "hi again");
                   mkMessage model (JS.lit "Hello")]) ∧
    error s' = None ∧ isLoading s' = false ∧ userInput s' = [] ∧
    sent s' = sent typedHi ++ [JS.lit " hi "; JS.lit "hi again"].
Proof.
  split; [exists typedHiTrace; reflexivity|]. split; [reflexivity|].
  split; [reflexivity|]. split; [discriminate|].
  apply (X16_retry_after_failure typedHi [] [Some (JS.lit "H")] [Some (JS.lit "Hello")]
           (JS.lit "hi again")).
  - exists typedHiTrace; reflexivity.
  - reflexivity.
  - reflexivity.
  - discriminate.
Defined.

(** ** Streams whose chunks all carry a text *)

Lemma appended_texts (ts : list JS.str) : appended (Some <$> ts) = concat ts.
Proof.
  induction ts as [|t ts IH]; [done|].
  change (appended (Some <$> t :: ts)) with (t ++ appended (Some <$> ts)).
  by rewrite IH.
Qed.

(** X17. When every chunk of a stream that ends normally carries a text,
    the last message of the Conversation is then a model message whose
    text is the concatenation of the chunk texts from left to right. *)
Theorem X17_text_chunks_concatenate (s : Sys) (ts : list JS.str) :
  reachable s → returnsEarly s = false →
  ∃ s',
    handleSendMessage s (mkOutcome (Some <$> ts) true) = Some s' ∧
    last <$> conversation s' = Some (Some (mkMessage model (concat ts))) ∧
    isLoading s' = false.
Proof.
  intros Hs Hg.
  destruct (chunks_appended s (Some <$> ts) Hs Hg)
    as (sb & s' & _ & _ & Hsend & Hlast & Hl).
  exists s'. split_and!; [done| |done]. by rewrite <- appended_texts.
Qed.

Lemma X17_witness :
  reachable typedHi ∧ returnsEarly typedHi = false ∧
  ∃ s',
    handleSendMessage typedHi
      (mkOutcome [Some (JS.lit "Hi"); Some (JS.lit " there")] true) = Some s' ∧
    last <$> conversation s' =
      Some (Some (mkMessage model (JS.lit "Hi there"))) ∧
    isLoading s' = false.
Proof.
  split; [exists typedHiTrace; reflexivity|]. split; [reflexivity|].
  apply (X17_text_chunks_concatenate typedHi [JS.lit "Hi"; JS.lit " there"]).
  - exists typedHiTrace; reflexivity.
  - reflexivity.
Defined.
